(** * ps3-sfo-parser: a shallow embedding of package [sfo]

    The Go package reads a PlayStation PARAM.SFO file into an in-memory
    table ([NewSFOParser]), offers accessors and mutators by position, and
    writes the directory back to the file ([SaveSFO]).  This development
    embeds the package function by function and settles the properties the
    specification states about it.

    Conventions of the embedding:
    - Go's fixed-width signed integers are values of [Z] together with an
      explicit wrap-around ([int16], [int32], [int]); [int] is 64 bits
      wide, as on amd64 and arm64;
    - a [string] or a [[]byte] of Go is a [list byte];
    - a method with pointer receiver is a state transformer that returns
      the receiver next to its outcome;
    - an outcome is a value, a returned [error], or the end of the
      process: a run-time panic, or the runtime's out-of-memory error
      where a [make] asks for as much as the file says;
    - the file system maps a path to a directory, to a regular file the
      process may read and write, or to one it may only read. *)

From Stdlib Require Import ZArith List Lia Strings.String Strings.Byte.
From stdpp Require Import base list gmap strings.
Import ListNotations.
Open Scope Z_scope.

(** ** Go integers *)

Module GoInt.

(** Two's complement reduction of [x] to [bits] bits. *)
Definition wrap (bits : Z) (x : Z) : Z :=
  (x + 2 ^ (bits - 1)) mod 2 ^ bits - 2 ^ (bits - 1).

Definition int16 : Z → Z := wrap 16.
Definition int32 : Z → Z := wrap 32.
Definition int : Z → Z := wrap 64.

Definition MaxInt : Z := 2 ^ 63 - 1.
Definition MinInt : Z := - 2 ^ 63.

End GoInt.
Export GoInt.

(** ** Bytes and little-endian fields *)

#[global] Instance byte_eq_dec : EqDecision byte := Byte.byte_eq_dec.

Definition Z_of_byte (b : byte) : Z := Z.of_N (Byte.to_N b).

Definition byte_of_Z (z : Z) : byte :=
  default x00 (Byte.of_N (Z.to_N (z mod 256))).

(** Unsigned value of a little-endian byte run. *)
Fixpoint le_uint (bs : list byte) : Z :=
  match bs with
  | [] => 0
  | b :: rest => Z_of_byte b + 256 * le_uint rest
  end.

(** The [n] low-order bytes of [z], least significant first
    ([binary.LittleEndian.PutUintN] of the two's complement pattern). *)
Fixpoint le_bytes (n : nat) (z : Z) : list byte :=
  match n with
  | O => []
  | S n' => byte_of_Z z :: le_bytes n' (z / 256)
  end.

(** [binary.LittleEndian.Uint32(b)] reads [b[0..3]]; [None] stands for the
    bounds-check panic on a slice shorter than four bytes. *)
Definition Uint32 (b : list byte) : option Z :=
  match b with
  | b0 :: b1 :: b2 :: b3 :: _ => Some (le_uint [b0; b1; b2; b3])
  | _ => None
  end.

(** ** Outcomes *)

(** Why [fmt.Sscanf] gave up. *)
Inductive scan_failure : Set :=
  | UnexpectedNewline   (* "unexpected newline" *)
  | EndOfInput          (* the EOF error: no input left where a digit is due *)
  | ExpectedInteger     (* "expected integer" *)
  | ValueOutOfRange     (* strconv.ParseInt: value out of range *)
  | IntegerOverflow.    (* "integer overflow on token ..." *)

(** The error values the package returns.  The first four are the ones it
    creates with [errors.New]; the others come from [io], [os] and [fmt]. *)
Inductive error : Set :=
  | ErrNotValidSFO      (* errors.New("not a valid SFO file") *)
  | ErrKeyNotFound      (* errors.New("key not found") *)
  | ErrIndexOutOfRange  (* errors.New("index out of range") *)
  | ErrUnknownType      (* errors.New("unknown type") *)
  | ErrEOF              (* io.EOF *)
  | ErrUnexpectedEOF    (* io.ErrUnexpectedEOF *)
  | ErrNotExist         (* os.Stat / os.OpenFile: no such file *)
  | ErrIsDirectory      (* os.OpenFile for writing on a directory *)
  | ErrPermission       (* os.OpenFile for writing refused: EACCES, EROFS *)
  | ErrScan (f : scan_failure).

Inductive panic : Set :=
  | PanicIndex          (* index out of range *)
  | PanicMakeSlice      (* makeslice: len out of range *)
  | PanicTypeAssertion  (* interface conversion *)
  | PanicDivide         (* integer divide by zero *)
  | OutOfMemory.        (* fatal error: runtime: out of memory *)

Inductive result (A : Type) : Type :=
  | Ok (a : A)
  | Err (e : error)
  | Panic (p : panic).
Arguments Ok {A} a.
Arguments Err {A} e.
Arguments Panic {A} p.

(** ** Memory *)

(** A [make] whose length is a number read from the file asks the runtime
    for [len * size] bytes.  Whether the runtime finds them depends on the
    machine: [alloc] says so for every request.  When it does not, the
    process ends with "fatal error: runtime: out of memory"; no [recover]
    stops that, and here it is an outcome next to the panics.  A request
    for no bytes always succeeds. *)
Definition out_of_memory (alloc : Z → bool) (bytes : Z) : bool :=
  negb (alloc bytes) && (0 <? bytes).

(** A machine that finds whatever it is asked for. *)
Definition unlimited : Z → bool := λ _, true.

(** Code that threads a mutable state [St] and may stop early. *)
Definition M (St A : Type) : Type := St → St * result A.

Definition ret {St A} (a : A) : M St A := λ s, (s, Ok a).
Definition fail {St A} (e : error) : M St A := λ s, (s, Err e).
Definition crash {St A} (p : panic) : M St A := λ s, (s, Panic p).
Definition get {St} : M St St := λ s, (s, Ok s).
Definition lift {St A} (r : result A) : M St A := λ s, (s, r).
Definition modify {St} (f : St → St) : M St unit := λ s, (f s, Ok tt).

Definition bind {St A B} (m : M St A) (k : A → M St B) : M St B :=
  λ s, match m s with
       | (s', Ok a) => k a s'
       | (s', Err e) => (s', Err e)
       | (s', Panic p) => (s', Panic p)
       end.

Notation "'let*' x ':=' m 'in' k" := (bind m (λ x, k))
  (at level 10, x pattern, m at level 100, k at level 200).

(** ** [alignment] *)

(** [func alignment(num, align int) int].  Go's [%] truncates towards zero
    ([Z.rem]) and panics on a zero divisor; the sum [num + 4 - tmp] is
    evaluated left to right in [int].  Every call site passes [align = 4]. *)
Definition alignment (num align : Z) : result Z :=
  if align =? 0 then Panic PanicDivide
  else
    let tmp := Z.rem num align in
    if negb (tmp =? 0) then Ok (int (int (num + 4) - tmp)) else Ok num.

(** ** Data model *)

(** [type SFOType byte] with its three constants. *)
Definition SFOType : Set := byte.
Definition ByteType : SFOType := x00.
Definition StringType : SFOType := x02.
Definition IntType : SFOType := x04.

(** A [[4]byte] array. *)
Definition byte4 : Set := (byte * byte * byte * byte)%type.

Definition bytes_of_byte4 (a : byte4) : list byte :=
  let '(a0, a1, a2, a3) := a in [a0; a1; a2; a3].

Record PsfHdr : Set := mkPsfHdr {
  Psf : byte4;
  Unknown : byte4;
  LabelPtr : Z;   (* int32 *)
  DataPtr : Z;    (* int32 *)
  NSects : Z      (* int32 *)
}.

Record PsfSec : Set := mkPsfSec {
  LabelOff : Z;       (* int16 *)
  SecUnknown : byte;  (* field Unknown *)
  DataType : byte;
  DatafieldUsed : Z;  (* int32 *)
  DatafieldSize : Z;  (* int32 *)
  DataOff : Z         (* int32 *)
}.

(** The dynamic contents of the [interface{}] field [Value]: nothing
    (the zero interface), a [[]byte], a [string] or an [int32]. *)
Inductive value : Set :=
  | VNil
  | VBytes (b : list byte)
  | VString (s : list byte)
  | VInt32 (i : Z).

Record SFOPair : Set := mkSFOPair {
  Label : list byte;
  Type_ : SFOType;      (* field Type *)
  Value : value;
  pair_PsfSec : PsfSec  (* field PsfSec *)
}.

Record SFOParser : Set := mkSFOParser {
  parser_PsfHdr : PsfHdr;       (* field PsfHdr *)
  parser_PsfSec : list PsfSec;  (* field PsfSec *)
  Pairs : list SFOPair;
  FilePath : string
}.

Definition magic : list byte := [x00; x50; x53; x46].  (* 0, 'P', 'S', 'F' *)

Definition sizeof_PsfHdr : Z := 20.  (* binary.Size(PsfHdr{}) *)
Definition sizeof_PsfSec : Z := 16.  (* binary.Size(PsfSec{}) *)
Definition sizeof_SFOPair : Z := 56. (* unsafe.Sizeof(SFOPair{}), 64-bit *)

(** *** Wire form of the two structs ([encoding/binary], little endian) *)

Definition byte_at (bs : list byte) (i : nat) : byte := default x00 (bs !! i).

Definition field (bs : list byte) (off len : nat) : list byte :=
  take len (drop off bs).

Definition decode_PsfHdr (bs : list byte) : PsfHdr :=
  {| Psf := (byte_at bs 0, byte_at bs 1, byte_at bs 2, byte_at bs 3);
     Unknown := (byte_at bs 4, byte_at bs 5, byte_at bs 6, byte_at bs 7);
     LabelPtr := int32 (le_uint (field bs 8 4));
     DataPtr := int32 (le_uint (field bs 12 4));
     NSects := int32 (le_uint (field bs 16 4)) |}.

Definition encode_PsfHdr (h : PsfHdr) : list byte :=
  bytes_of_byte4 (Psf h) ++ bytes_of_byte4 (Unknown h)
  ++ le_bytes 4 (LabelPtr h) ++ le_bytes 4 (DataPtr h) ++ le_bytes 4 (NSects h).

Definition decode_PsfSec (bs : list byte) : PsfSec :=
  {| LabelOff := int16 (le_uint (field bs 0 2));
     SecUnknown := byte_at bs 2;
     DataType := byte_at bs 3;
     DatafieldUsed := int32 (le_uint (field bs 4 4));
     DatafieldSize := int32 (le_uint (field bs 8 4));
     DataOff := int32 (le_uint (field bs 12 4)) |}.

Definition encode_PsfSec (s : PsfSec) : list byte :=
  le_bytes 2 (LabelOff s) ++ [SecUnknown s; DataType s]
  ++ le_bytes 4 (DatafieldUsed s) ++ le_bytes 4 (DatafieldSize s)
  ++ le_bytes 4 (DataOff s).

(** ** Files *)

(** What a path names: a directory, a regular file that the process may
    open for reading and for writing, or a regular file that it may open
    for reading only (its mode bits say so, or the medium is read-only).
    Files the process may not read are not modelled. *)
Inductive inode : Set :=
  | Directory
  | Regular (data : list byte)
  | ReadOnly (data : list byte).

(** An open [*os.File] on a regular file: its bytes and the file offset. *)
Record File : Set := mkFile {
  content : list byte;
  offset : Z
}.

(** [file.Seek(off, io.SeekStart)].  A negative offset is refused with
    EINVAL and the file offset stays where it was; the callers drop the
    error. *)
Definition Seek (off : Z) (f : File) : File :=
  if off <? 0 then f else mkFile (content f) off.

Definition unread (f : File) : list byte :=
  drop (Z.to_nat (offset f)) (content f).

(** [file.Read(b)] for a fresh zeroed [b] of length [n]; the value is [b]
    after the call.  A zero-length read succeeds, at end of file the call
    returns [io.EOF], otherwise it delivers what is there, without error
    even when that is less than [n]. *)
Definition Read (n : nat) : M File (list byte) := λ f,
  match n, unread f with
  | O, _ => (f, Ok [])
  | _, [] => (f, Err ErrEOF)
  | _, rest =>
      let got := take n rest in
      (mkFile (content f) (offset f + Z.of_nat (length got)),
       Ok (got ++ replicate (n - length got) x00))
  end.

(** [io.ReadFull(file, b)] with [len(b) = n], as [binary.Read] calls it. *)
Definition ReadFull (n : nat) : M File (list byte) := λ f,
  let rest := unread f in
  if (n <=? length rest)%nat
  then (mkFile (content f) (offset f + Z.of_nat n), Ok (take n rest))
  else (mkFile (content f) (offset f + Z.of_nat (length rest)),
        Err (match rest with [] => ErrEOF | _ => ErrUnexpectedEOF end)).

(** [file.Write(b)] at the file offset: overwrites in place, extends the
    file when it runs past the end (a gap reads as zeros). *)
Definition Write (bs : list byte) (f : File) : File :=
  match bs with
  | [] => f
  | _ =>
      let pos := Z.to_nat (offset f) in
      mkFile (take pos (content f) ++ replicate (pos - length (content f)) x00
              ++ bs ++ drop (pos + length bs) (content f))
             (offset f + Z.of_nat (length bs))
  end.

(** ** [readByteString] *)

(** The loop of [readByteString] over the bytes not yet read: every
    [r.Read(buf)] hands over the next one, and running out of bytes is the
    [io.EOF] of the read.  The value is the collected [result] and the
    number of bytes consumed, terminator included. *)
Fixpoint readByteString_loop (rest result : list byte) : option (list byte * nat) :=
  match rest with
  | [] => None
  | b :: rest' =>
      if bool_decide (b = x00) then Some (result, 1%nat)
      else match readByteString_loop rest' (result ++ [b]) with
           | Some (r, n) => Some (r, S n)
           | None => None
           end
  end.

Definition readByteString : M File (list byte) := λ f,
  match readByteString_loop (unread f) [] with
  | Some (r, n) => (mkFile (content f) (offset f + Z.of_nat n), Ok r)
  | None => (mkFile (content f) (offset f + Z.of_nat (length (unread f))), Err ErrEOF)
  end.

(** ** [NewSFOParser] *)

(** The first loop: [NSects] descriptors, one [binary.Read] each. *)
Fixpoint read_PsfSecs (n : nat) : M File (list PsfSec) :=
  match n with
  | O => ret []
  | S n' =>
      let* bs := ReadFull (Z.to_nat sizeof_PsfSec) in
      let* secs := read_PsfSecs n' in
      ret (decode_PsfSec bs :: secs)
  end.

(** Where the decoder seeks for a label: the sum is taken in [int16]. *)
Definition label_seek (hdr : PsfHdr) (sec : PsfSec) : Z :=
  int16 (LabelOff sec + int16 (LabelPtr hdr)).

(** Where it seeks for a value: the sum is taken in [int32]. *)
Definition data_seek (hdr : PsfHdr) (sec : PsfSec) : Z :=
  int32 (DataOff sec + DataPtr hdr).

(** The [switch] on [DataType]; it has no [default]. *)
Definition decode_value (ty : byte) (tmpbuffer : list byte) : M File value :=
  if bool_decide (ty = x00) then ret (VBytes tmpbuffer)
  else if bool_decide (ty = x02) then ret (VString tmpbuffer)
  else if bool_decide (ty = x04) then
    match Uint32 tmpbuffer with
    | Some u => ret (VInt32 (int32 u))
    | None => crash PanicIndex
    end
  else ret VNil.

(** One turn of the second loop. *)
Definition read_pair (alloc : Z → bool) (hdr : PsfHdr) (sec : PsfSec) : M File SFOPair :=
  let* _ := modify (Seek (label_seek hdr sec)) in
  let* label := readByteString in
  let* _ := modify (Seek (data_seek hdr sec)) in
  if DatafieldUsed sec <? 0 then crash PanicMakeSlice else
  if out_of_memory alloc (DatafieldUsed sec) then crash OutOfMemory else
  let* tmpbuffer := Read (Z.to_nat (DatafieldUsed sec)) in
  let* v := decode_value (DataType sec) tmpbuffer in
  ret {| Label := label; Type_ := DataType sec; Value := v; pair_PsfSec := sec |}.

Fixpoint read_pairs (alloc : Z → bool) (hdr : PsfHdr) (secs : list PsfSec)
  : M File (list SFOPair) :=
  match secs with
  | [] => ret []
  | sec :: secs' =>
      let* entry := read_pair alloc hdr sec in
      let* pairs := read_pairs alloc hdr secs' in
      ret (entry :: pairs)
  end.

(** [bytes.Equal], and [==] on strings. *)
Definition bytes_eqb (a b : list byte) : bool := bool_decide (a = b).

(** The body of [NewSFOParser] once the file is open.  Both tables are
    made for [NSects] elements before anything is read into them. *)
Definition parse (alloc : Z → bool) (filePath : string) : M File SFOParser :=
  let* bs := ReadFull (Z.to_nat sizeof_PsfHdr) in
  let hdr := decode_PsfHdr bs in
  if negb (bytes_eqb (bytes_of_byte4 (Psf hdr)) magic) then fail ErrNotValidSFO else
  if NSects hdr <? 0 then crash PanicMakeSlice else
  if out_of_memory alloc (NSects hdr * sizeof_PsfSec) then crash OutOfMemory else
  let* secs := read_PsfSecs (Z.to_nat (NSects hdr)) in
  if out_of_memory alloc (NSects hdr * sizeof_SFOPair) then crash OutOfMemory else
  let* pairs := read_pairs alloc hdr secs in
  ret {| parser_PsfHdr := hdr; parser_PsfSec := secs; Pairs := pairs;
         FilePath := filePath |}.

(** [NewSFOParser] on a machine whose memory is [alloc]. *)
Definition NewSFOParser_mem (alloc : Z → bool) (fs : gmap string inode) (filePath : string)
  : result SFOParser :=
  match fs !! filePath with
  | None => Err ErrNotExist
  | Some Directory => Err ErrNotValidSFO
  | Some (Regular data) | Some (ReadOnly data) =>
      snd (parse alloc filePath (mkFile data 0))
  end.

(** [NewSFOParser] where memory is no matter: every outcome of
    [NewSFOParser_mem] other than [OutOfMemory] is this one. *)
Definition NewSFOParser (fs : gmap string inode) (filePath : string) : result SFOParser :=
  NewSFOParser_mem unlimited fs filePath.

(** ** [SaveSFO] *)

(** The receiver and the local [bytes.Buffer] while [SaveSFO] runs. *)
Record SaveState : Set := mkSaveState {
  sv_parser : SFOParser;
  sv_buf : list byte
}.

Definition set_PsfHdr (h : PsfHdr) (p : SFOParser) : SFOParser :=
  mkSFOParser h (parser_PsfSec p) (Pairs p) (FilePath p).

Definition set_LabelPtr (v : Z) (h : PsfHdr) : PsfHdr :=
  mkPsfHdr (Psf h) (Unknown h) v (DataPtr h) (NSects h).
Definition set_DataPtr (v : Z) (h : PsfHdr) : PsfHdr :=
  mkPsfHdr (Psf h) (Unknown h) (LabelPtr h) v (NSects h).

Definition set_LabelOff (v : Z) (s : PsfSec) : PsfSec :=
  mkPsfSec v (SecUnknown s) (DataType s) (DatafieldUsed s) (DatafieldSize s) (DataOff s).
Definition set_DatafieldUsed (v : Z) (s : PsfSec) : PsfSec :=
  mkPsfSec (LabelOff s) (SecUnknown s) (DataType s) v (DatafieldSize s) (DataOff s).
Definition set_DatafieldSize (v : Z) (s : PsfSec) : PsfSec :=
  mkPsfSec (LabelOff s) (SecUnknown s) (DataType s) (DatafieldUsed s) v (DataOff s).
Definition set_DataOff (v : Z) (s : PsfSec) : PsfSec :=
  mkPsfSec (LabelOff s) (SecUnknown s) (DataType s) (DatafieldUsed s) (DatafieldSize s) v.

(** [buf.Len()] *)
Definition Len : M SaveState Z := λ st, (st, Ok (Z.of_nat (length (sv_buf st)))).

(** [buf.Write], [buf.WriteString], [buf.WriteByte] *)
Definition buf_Write (bs : list byte) : M SaveState unit :=
  modify (λ st, mkSaveState (sv_parser st) (sv_buf st ++ bs)).

(** [for buf.Len() < limit { buf.WriteByte(0) }] *)
Definition pad_to (limit : Z) : M SaveState unit :=
  let* n := Len in buf_Write (replicate (Z.to_nat (limit - n)) x00).

Definition the_PsfHdr : M SaveState PsfHdr := λ st, (st, Ok (parser_PsfHdr (sv_parser st))).

Definition update_PsfHdr (f : PsfHdr → PsfHdr) : M SaveState unit :=
  modify (λ st, mkSaveState (set_PsfHdr (f (parser_PsfHdr (sv_parser st))) (sv_parser st))
                            (sv_buf st)).

(** [parser.PsfSec[i]], read; indexing past the slice panics. *)
Definition PsfSec_at (i : nat) : M SaveState PsfSec := λ st,
  match parser_PsfSec (sv_parser st) !! i with
  | Some sec => (st, Ok sec)
  | None => (st, Panic PanicIndex)
  end.

(** [parser.PsfSec[i].field = ...] *)
Definition update_PsfSec (i : nat) (f : PsfSec → PsfSec) : M SaveState unit :=
  let* _ := PsfSec_at i in
  modify (λ st,
    let p := sv_parser st in
    mkSaveState (mkSFOParser (parser_PsfHdr p) (alter f i (parser_PsfSec p)) (Pairs p)
                             (FilePath p))
                (sv_buf st)).

(** [parser.Pairs[i]] *)
Definition Pairs_at (i : nat) : M SaveState SFOPair := λ st,
  match Pairs (sv_parser st) !! i with
  | Some entry => (st, Ok entry)
  | None => (st, Panic PanicIndex)
  end.

(** [for i := 0; i < count; i++ { body }], started at [i]. *)
Fixpoint for_range {St : Type} (count i : nat) (body : nat → M St unit) : M St unit :=
  match count with
  | O => ret tt
  | S count' => let* _ := body i in for_range count' (S i) body
  end.

(** Body of the loop under "Write label field". *)
Definition write_label (i : nat) : M SaveState unit :=
  let* n := Len in
  let* _ := update_PsfSec i (set_LabelOff (int16 n)) in
  let* entry := Pairs_at i in
  let* _ := buf_Write (Label entry) in
  buf_Write [x00].

(** The [switch] on the entry's [Type]; it has no [default], and each
    case asserts the dynamic type of [Value]. *)
Definition write_value (entry : SFOPair) : M SaveState unit :=
  if bool_decide (Type_ entry = x00) then
    match Value entry with VBytes b => buf_Write b | _ => crash PanicTypeAssertion end
  else if bool_decide (Type_ entry = x02) then
    match Value entry with VString s => buf_Write s | _ => crash PanicTypeAssertion end
  else if bool_decide (Type_ entry = x04) then
    match Value entry with VInt32 v => buf_Write (le_bytes 4 v) | _ => crash PanicTypeAssertion end
  else ret tt.

(** Body of the loop under "Write data set". *)
Definition write_data (i : nat) : M SaveState unit :=
  let* n := Len in
  let* _ := update_PsfSec i (set_DataOff (int32 n)) in
  let* entry := Pairs_at i in
  let* _ := write_value entry in
  let* n' := Len in
  let* sec := PsfSec_at i in
  let* _ := update_PsfSec i (set_DatafieldUsed (int32 (int32 n' - DataOff sec))) in
  let* sec := PsfSec_at i in
  let* size := lift (alignment (DatafieldUsed sec) 4) in
  let* _ := update_PsfSec i (set_DatafieldSize (int32 size)) in
  let* sec := PsfSec_at i in
  pad_to (int32 (DataOff sec + DatafieldSize sec)).

(** [int32(binary.Size(parser.PsfHdr) + len(parser.PsfSec)*binary.Size(PsfSec{}))] *)
Definition fresh_LabelPtr (p : SFOParser) : Z :=
  int32 (sizeof_PsfHdr + Z.of_nat (length (parser_PsfSec p)) * sizeof_PsfSec).

Definition refresh_LabelPtr : M SaveState unit :=
  let* st := get in
  update_PsfHdr (set_LabelPtr (fresh_LabelPtr (sv_parser st))).

(** Everything [SaveSFO] does between opening the file and touching it:
    the new header fields, the new descriptors, and the buffer that
    receives the label block and then the data block. *)
Definition SaveSFO_layout : M SaveState unit :=
  let* _ := refresh_LabelPtr in
  let* hdr := the_PsfHdr in
  let count := Z.to_nat (NSects hdr) in
  let* _ := for_range count 0 write_label in
  let* n := Len in
  let* aligned := lift (alignment n 4) in
  let* _ := update_PsfHdr (set_DataPtr (int32 aligned)) in
  let* hdr := the_PsfHdr in
  let* _ := pad_to (DataPtr hdr) in
  for_range count 0 write_data.

(** [for _, sec := range parser.PsfSec { binary.Write(file, ..., sec) }] *)
Definition write_PsfSecs (secs : list PsfSec) (f : File) : File :=
  foldl (λ f sec, Write (encode_PsfSec sec) f) f secs.

(** [SaveSFO]: the receiver after the call, the file system after the
    call, and the outcome.  The file is opened [O_WRONLY], neither created
    nor truncated; the open fails on a missing file, on a directory and on
    a file the process may not write.  After the layout the function seeks behind the header,
    writes the descriptors, assigns [LabelPtr] once more, seeks to 0 and
    writes the header; what [Seek] and [binary.Write] return is dropped in
    the source. *)
Definition SaveSFO (parser : SFOParser) (fs : gmap string inode)
  : SFOParser * gmap string inode * result unit :=
  let path := FilePath parser in
  match fs !! path with
  | None => (parser, fs, Err ErrNotExist)
  | Some Directory => (parser, fs, Err ErrIsDirectory)
  | Some (ReadOnly _) => (parser, fs, Err ErrPermission)
  | Some (Regular data) =>
      match SaveSFO_layout (mkSaveState parser []) with
      | (st, Ok _) =>
          let parser := sv_parser st in
          let file := mkFile data 0 in
          let file := Seek sizeof_PsfHdr file in
          let file := write_PsfSecs (parser_PsfSec parser) file in
          let parser :=
            set_PsfHdr (set_LabelPtr (fresh_LabelPtr parser) (parser_PsfHdr parser)) parser in
          let file := Seek 0 file in
          let file := Write (encode_PsfHdr (parser_PsfHdr parser)) file in
          (parser, <[path := Regular (content file)]> fs, Ok tt)
      | (st, Err e) => (sv_parser st, fs, Err e)
      | (st, Panic p) => (sv_parser st, fs, Panic p)
      end
  end.

(** ** Accessors *)

Definition GetLength (parser : SFOParser) : Z := NSects (parser_PsfHdr parser).

Fixpoint GetValue_scan (pairs : list SFOPair) (key : list byte) : result value :=
  match pairs with
  | [] => Err ErrKeyNotFound
  | entry :: rest =>
      if bytes_eqb (Label entry) key then Ok (Value entry) else GetValue_scan rest key
  end.

Definition GetValue (parser : SFOParser) (key : list byte) : result value :=
  GetValue_scan (Pairs parser) key.

(** [index < 0 || index >= len(parser.Pairs)] *)
Definition out_of_range (parser : SFOParser) (index : Z) : bool :=
  (index <? 0) || (index >=? Z.of_nat (length (Pairs parser))).

(** [parser.Pairs[index]] as an expression. *)
Definition Pairs_index (parser : SFOParser) (index : Z) : result SFOPair :=
  if index <? 0 then Panic PanicIndex
  else match Pairs parser !! Z.to_nat index with
       | Some entry => Ok entry
       | None => Panic PanicIndex
       end.

Definition GetValueByIndex (parser : SFOParser) (index : Z) : result value :=
  if out_of_range parser index then Err ErrIndexOutOfRange
  else match Pairs_index parser index with
       | Ok entry => Ok (Value entry)
       | Err e => Err e
       | Panic p => Panic p
       end.

Definition GetKeyByIndex (parser : SFOParser) (index : Z) : result (list byte) :=
  if out_of_range parser index then Err ErrIndexOutOfRange
  else match Pairs_index parser index with
       | Ok entry => Ok (Label entry)
       | Err e => Err e
       | Panic p => Panic p
       end.

Definition GetTypeByIndex (parser : SFOParser) (index : Z) : result byte :=
  if out_of_range parser index then Err ErrIndexOutOfRange
  else match Pairs_index parser index with
       | Ok entry => Ok (Type_ entry)
       | Err e => Err e
       | Panic p => Panic p
       end.

(** ** [fmt.Sscanf(value, "%d", &intValue)] with [intValue] an [int32] *)

Definition is_digit (b : byte) : bool :=
  (48 <=? Z_of_byte b) && (Z_of_byte b <=? 57).

(** The ASCII part of [fmt]'s white space table without the newline:
    U+0009..U+000D and U+0020. *)
Definition is_ascii_space (b : byte) : bool :=
  ((9 <=? Z_of_byte b) && (Z_of_byte b <=? 13)) || (Z_of_byte b =? 32).

(** UTF-8 encodings of the other entries of the table: U+0085 and U+00A0
    take two bytes; U+1680, U+2000..U+200A, U+2028, U+2029, U+202F, U+205F
    and U+3000 take three. *)
Definition is_space2 (b0 b1 : byte) : bool :=
  bool_decide (b0 = xc2) && (bool_decide (b1 = x85) || bool_decide (b1 = xa0)).

Definition is_space3 (b0 b1 b2 : byte) : bool :=
  (bool_decide (b0 = xe1) && bool_decide (b1 = x9a) && bool_decide (b2 = x80))
  || (bool_decide (b0 = xe2) && bool_decide (b1 = x80)
      && (((128 <=? Z_of_byte b2) && (Z_of_byte b2 <=? 138))
          || bool_decide (b2 = xa8) || bool_decide (b2 = xa9) || bool_decide (b2 = xaf)))
  || (bool_decide (b0 = xe2) && bool_decide (b1 = x81) && bool_decide (b2 = x9f))
  || (bool_decide (b0 = xe3) && bool_decide (b1 = x80) && bool_decide (b2 = x80)).

(** [fmt] counts the runes it hands out and hands out none once the count
    has reached its limit: [ss.ReadRune] returns [io.EOF] when
    [s.count >= s.argLimit], and for a verb without a width the limit is
    [hugeWid = 1 << 30] during the whole call.  A rune that is put back
    ([UnreadRune]) is not counted. *)
Definition hugeWid : Z := 1073741824.

(** What the scanner still sees of the input [s] after [count] runes. *)
Definition seen (count : Z) (s : list byte) : list byte :=
  if hugeWid <=? count then [] else s.

(** [ss.SkipSpace] in the mode of [Sscanf], where a newline is not
    white space: runes of the table are consumed, a newline is an error,
    any other rune is put back.  A rune outside the table, whatever its
    encoding, stops the loop at its first byte.  The value is the count of
    runes read so far and the input that is left. *)
Fixpoint SkipSpace (count : Z) (s : list byte) : scan_failure + (Z * list byte) :=
  if hugeWid <=? count then inr (count, s) else
  match s with
  | [] => inr (count, [])
  | b0 :: s1 =>
      if bool_decide (b0 = x0a) then inl UnexpectedNewline
      else if is_ascii_space b0 then SkipSpace (count + 1) s1
      else match s1 with
           | [] => inr (count, s)
           | b1 :: s2 =>
               if is_space2 b0 b1 then SkipSpace (count + 1) s2
               else match s2 with
                    | [] => inr (count, s)
                    | b2 :: s3 =>
                        if is_space3 b0 b1 b2 then SkipSpace (count + 1) s3
                        else inr (count, s)
                    end
           end
  end.

(** Value of a run of decimal digits. *)
Definition decimal (ds : list byte) : Z :=
  foldl (λ acc d, 10 * acc + (Z_of_byte d - 48)) 0 ds.

(** One optional sign is accepted. *)
Definition accept_sign (count : Z) (s : list byte) : bool * Z * list byte :=
  match seen count s with
  | b :: rest =>
      if bool_decide (b = x2d) then (true, count + 1, rest)         (* '-' *)
      else if bool_decide (b = x2b) then (false, count + 1, rest)   (* '+' *)
      else (false, count, s)
  | [] => (false, count, s)
  end.

(** [for s.accept(digits) {}]: the digits at the front of the input. *)
Fixpoint accept_digits (count : Z) (s : list byte) : list byte :=
  if hugeWid <=? count then [] else
  match s with
  | d :: rest => if is_digit d then d :: accept_digits (count + 1) rest else []
  | [] => []
  end.

(** [ss.scanNumber]: there must be input left ([notEOF]) and it must
    start with a digit; then every further digit is taken. *)
Definition scanNumber (count : Z) (s : list byte) : scan_failure + list byte :=
  match seen count s with
  | [] => inl EndOfInput
  | d :: _ =>
      if negb (is_digit d) then inl ExpectedInteger
      else inr (accept_digits count s)
  end.

(** The end of [scanInt('d', 32)]: [strconv.ParseInt(tok, 10, 64)], then
    the check that the value survives the truncation to 32 bits. *)
Definition scanInt32 (neg : bool) (tok : list byte) : scan_failure + Z :=
  let i := if neg then - decimal tok else decimal tok in
  if (i <? MinInt) || (MaxInt <? i) then inl ValueOutOfRange
  else if negb (int32 i =? i) then inl IntegerOverflow
  else inr i.

(** [fmt.Sscanf(value, "%d", &intValue)]: white space, [notEOF], an
    optional sign, the number.  Input behind the last digit is left
    unread, and [Sscanf] does not look at it. *)
Definition Sscanf_d (value : list byte) : scan_failure + Z :=
  match SkipSpace 0 value with
  | inl f => inl f
  | inr (count, s) =>
      match seen count s with
      | [] => inl EndOfInput
      | _ =>
          let '(neg, count, s') := accept_sign count s in
          match scanNumber count s' with
          | inl f => inl f
          | inr tok => scanInt32 neg tok
          end
      end
  end.

(** ** Mutators *)

Definition set_Value (v : value) (e : SFOPair) : SFOPair :=
  mkSFOPair (Label e) (Type_ e) v (pair_PsfSec e).

Definition set_Label (l : list byte) (e : SFOPair) : SFOPair :=
  mkSFOPair l (Type_ e) (Value e) (pair_PsfSec e).

(** [parser.Pairs[index].field = ...] *)
Definition update_Pairs (index : Z) (f : SFOPair → SFOPair) : M SFOParser unit := λ parser,
  match Pairs_index parser index with
  | Ok _ =>
      (mkSFOParser (parser_PsfHdr parser) (parser_PsfSec parser)
                   (alter f (Z.to_nat index) (Pairs parser)) (FilePath parser),
       Ok tt)
  | Err e => (parser, Err e)
  | Panic p => (parser, Panic p)
  end.

(** [value[len(value)-1]]: the last byte, which a string of length 0 does
    not have. *)
Definition last_byte (value : list byte) : result byte :=
  match last value with
  | Some b => Ok b
  | None => Panic PanicIndex
  end.

Definition SetValueByIndex (parser : SFOParser) (index : Z) (value : list byte)
  : SFOParser * result unit :=
  if out_of_range parser index then (parser, Err ErrIndexOutOfRange)
  else match Pairs_index parser index with
       | Err e => (parser, Err e)
       | Panic p => (parser, Panic p)
       | Ok entry =>
           if bool_decide (Type_ entry = ByteType) then
             update_Pairs index (set_Value (VBytes value)) parser
           else if bool_decide (Type_ entry = StringType) then
             match last_byte value with
             | Ok b =>
                 let value := if negb (bool_decide (b = x00)) then value ++ [x00] else value in
                 update_Pairs index (set_Value (VString value)) parser
             | Err e => (parser, Err e)
             | Panic p => (parser, Panic p)
             end
           else if bool_decide (Type_ entry = IntType) then
             match Sscanf_d value with
             | inl f => (parser, Err (ErrScan f))
             | inr intValue => update_Pairs index (set_Value (VInt32 intValue)) parser
             end
           else (parser, Err ErrUnknownType)
       end.

Definition SetLabelByIndex (parser : SFOParser) (index : Z) (value : list byte)
  : SFOParser * result unit :=
  if out_of_range parser index then (parser, Err ErrIndexOutOfRange)
  else update_Pairs index (set_Label value) parser.

(** A type tag that is none of the three constants. *)
Definition unknown_tag (ty : byte) : Prop := ty ≠ x00 ∧ ty ≠ x02 ∧ ty ≠ x04.

(** ** Sample files *)

Definition sample_path : string := "PARAM.sfo".

(** A file system that holds one regular file. *)
Definition on_disk (data : list byte) : gmap string inode :=
  {[ sample_path := Regular data ]}.

(** One entry, [A] = 1 of type 4: header, descriptor, label block at 36,
    data block at 40. *)
Definition sample_file : list byte :=
  [x00; x50; x53; x46;  x01; x01; x00; x00;  x24; x00; x00; x00;
   x28; x00; x00; x00;  x01; x00; x00; x00;
   x00; x00; x04; x04;  x04; x00; x00; x00;  x04; x00; x00; x00;
   x00; x00; x00; x00;
   x41; x00; x00; x00;
   x01; x00; x00; x00].

Definition sample_PsfHdr : PsfHdr :=
  {| Psf := (x00, x50, x53, x46); Unknown := (x01, x01, x00, x00);
     LabelPtr := 36; DataPtr := 40; NSects := 1 |}.

Definition sample_PsfSec : PsfSec :=
  {| LabelOff := 0; SecUnknown := x04; DataType := x04;
     DatafieldUsed := 4; DatafieldSize := 4; DataOff := 0 |}.

(** What [NewSFOParser] makes of [sample_file]. *)
Definition sample_parser : SFOParser :=
  {| parser_PsfHdr := sample_PsfHdr;
     parser_PsfSec := [sample_PsfSec];
     Pairs := [ {| Label := [x41]; Type_ := IntType; Value := VInt32 1;
                   pair_PsfSec := sample_PsfSec |} ];
     FilePath := sample_path |}.

(** [sample_parser] after [SetLabelByIndex(0, "BB")]. *)
Definition renamed_parser : SFOParser :=
  {| parser_PsfHdr := sample_PsfHdr;
     parser_PsfSec := [sample_PsfSec];
     Pairs := [ {| Label := [x42; x42]; Type_ := IntType; Value := VInt32 1;
                   pair_PsfSec := sample_PsfSec |} ];
     FilePath := sample_path |}.

(** [sample_file] with [DatafieldUsed] = 2 in its descriptor. *)
Definition short_int_file : list byte :=
  [x00; x50; x53; x46;  x01; x01; x00; x00;  x24; x00; x00; x00;
   x28; x00; x00; x00;  x01; x00; x00; x00;
   x00; x00; x04; x04;  x02; x00; x00; x00;  x04; x00; x00; x00;
   x00; x00; x00; x00;
   x41; x00; x00; x00;
   x01; x00; x00; x00].

(** [sample_file] with 65536 zero bytes between the descriptor and the
    label block: [LabelPtr] = 65572 and [DataPtr] = 65576. *)
Definition far_label_file : list byte :=
  [x00; x50; x53; x46;  x01; x01; x00; x00;  x24; x00; x01; x00;
   x28; x00; x01; x00;  x01; x00; x00; x00;
   x00; x00; x04; x04;  x04; x00; x00; x00;  x04; x00; x00; x00;
   x00; x00; x00; x00]
  ++ replicate (Z.to_nat 65536) x00
  ++ [x41; x00; x00; x00;
      x01; x00; x00; x00].

(** [sample_file] with [DataType] = 1 in its descriptor. *)
Definition tag1_file : list byte :=
  [x00; x50; x53; x46;  x01; x01; x00; x00;  x24; x00; x00; x00;
   x28; x00; x00; x00;  x01; x00; x00; x00;
   x00; x00; x04; x01;  x04; x00; x00; x00;  x04; x00; x00; x00;
   x00; x00; x00; x00;
   x41; x00; x00; x00;
   x01; x00; x00; x00].

Definition tag1_PsfSec : PsfSec :=
  {| LabelOff := 0; SecUnknown := x04; DataType := x01;
     DatafieldUsed := 4; DatafieldSize := 4; DataOff := 0 |}.

(** What [NewSFOParser] makes of [tag1_file]. *)
Definition tag1_parser : SFOParser :=
  {| parser_PsfHdr := sample_PsfHdr;
     parser_PsfSec := [tag1_PsfSec];
     Pairs := [ {| Label := [x41]; Type_ := x01; Value := VNil;
                   pair_PsfSec := tag1_PsfSec |} ];
     FilePath := sample_path |}.

(** The model of the specification's example: [TITLE] = "Game\0" of type
    2 and [VERSION] = 1 of type 4, built in memory. *)
Definition example_parser : SFOParser :=
  {| parser_PsfHdr :=
       {| Psf := (x00, x50, x53, x46); Unknown := (x01, x01, x00, x00);
          LabelPtr := 0; DataPtr := 0; NSects := 2 |};
     parser_PsfSec := [ mkPsfSec 0 x04 x02 0 0 0; mkPsfSec 0 x04 x04 0 0 0 ];
     Pairs := [ {| Label := list_byte_of_string "TITLE"; Type_ := StringType;
                   Value := VString (list_byte_of_string "Game" ++ [x00]);
                   pair_PsfSec := mkPsfSec 0 x04 x02 0 0 0 |};
                {| Label := list_byte_of_string "VERSION"; Type_ := IntType;
                   Value := VInt32 1;
                   pair_PsfSec := mkPsfSec 0 x04 x04 0 0 0 |} ];
     FilePath := sample_path |}.

(** ** The specification's words, for comparison *)

(** The file the specification lets the encoder write: the header, then
    all descriptors, then the label block and the data block (here [buf],
    which holds the one after the other). *)
Definition file_image (parser : SFOParser) (buf : list byte) : list byte :=
  encode_PsfHdr (parser_PsfHdr parser)
  ++ concat (map encode_PsfSec (parser_PsfSec parser))
  ++ buf.

(** A decimal numeral: an optional sign, then one or more decimal digits,
    and nothing else. *)
Definition numeric (s : list byte) : bool :=
  let body := snd (accept_sign 0 s) in
  negb (bool_decide (body = [])) && forallb is_digit body.

(** One white-space rune of [fmt]'s table other than the newline, in
    UTF-8. *)
Definition white_space (r : list byte) : Prop :=
  match r with
  | [b] => is_ascii_space b = true ∧ b ≠ x0a
  | [b0; b1] => is_space2 b0 b1 = true
  | [b0; b1; b2] => is_space3 b0 b1 b2 = true
  | _ => False
  end.

(** [value] starts with the decimal numeral of [i]: white-space runes
    [ws], then an optional sign, then the digits [ds], which are not empty
    and end where [rest] begins with something else than a digit or where
    [hugeWid] runes have been read; and [i] fits 32 bits. *)
Definition leading_int32 (value : list byte) (i : Z) : Prop :=
  ∃ (ws : list (list byte)) (sign ds rest : list byte),
    value = concat ws ++ sign ++ ds ++ rest
    ∧ Forall white_space ws
    ∧ ((sign = [] ∨ sign = [x2b]) ∧ i = decimal ds ∨ sign = [x2d] ∧ i = - decimal ds)
    ∧ ds ≠ []
    ∧ Forall (λ d, is_digit d = true) ds
    ∧ Z.of_nat (length ws + length sign + length ds) ≤ hugeWid
    ∧ (Z.of_nat (length ws + length sign + length ds) = hugeWid
       ∨ ∀ d, head rest = Some d → is_digit d = false)
    ∧ - 2 ^ 31 ≤ i < 2 ^ 31.

(** ** Well-formed models *)

(** The dynamic type of [Value] is the one the tag announces: what the
    [switch] of [NewSFOParser] and the one of [SetValueByIndex] store. *)
Definition well_typed (e : SFOPair) : Prop :=
  match Value e with
  | VBytes _ => Type_ e = ByteType
  | VString _ => Type_ e = StringType
  | VInt32 _ => Type_ e = IntType
  | VNil => unknown_tag (Type_ e)
  end.

(** The three collections go in lock-step and every value is well typed. *)
Definition consistent (parser : SFOParser) : Prop :=
  NSects (parser_PsfHdr parser) = Z.of_nat (length (parser_PsfSec parser))
  ∧ length (Pairs parser) = length (parser_PsfSec parser)
  ∧ Forall well_typed (Pairs parser).

(** A model with one entry of type 0, built in memory. *)
Definition tag0_parser : SFOParser :=
  {| parser_PsfHdr := sample_PsfHdr;
     parser_PsfSec := [ mkPsfSec 0 x04 x00 4 4 0 ];
     Pairs := [ {| Label := [x41]; Type_ := ByteType; Value := VBytes [x01; x00; x00; x00];
                   pair_PsfSec := mkPsfSec 0 x04 x00 4 4 0 |} ];
     FilePath := sample_path |}.



(** ** The layout as a function of the entries

    A second description of what [SaveSFO_layout] computes, written as
    plain functions of the entry list, for comparison with the loops. *)

Definition zlen (l : list byte) : Z := Z.of_nat (length l).

(** Every label followed by one zero byte. *)
Definition label_block (pairs : list SFOPair) : list byte :=
  concat (map (λ e, Label e ++ [x00]) pairs).

(** The bytes of a well-typed value on the wire. *)
Definition wire (e : SFOPair) : list byte :=
  match Value e with
  | VBytes b => b
  | VString s => s
  | VInt32 v => le_bytes 4 v
  | VNil => []
  end.

(** [alignment(n, 4)], which never panics. *)
Definition aligned (n : Z) : Z :=
  match alignment n 4 with Ok a => a | _ => n end.

Definition used_size (e : SFOPair) : Z := int32 (zlen (wire e)).

Definition reserved_size (e : SFOPair) : Z := int32 (aligned (used_size e)).

(** Length of the buffer behind the label block and its padding. *)
Definition data_begin (pairs : list SFOPair) : Z :=
  let l := zlen (label_block pairs) in
  l + Z.max 0 (int32 (aligned l) - l).

(** Length of the buffer after one more value and its padding. *)
Definition data_end (start : Z) (e : SFOPair) : Z :=
  let n := start + zlen (wire e) in
  n + Z.max 0 (int32 (int32 start + reserved_size e) - n).

(** Length of the buffer when the turn of entry [k] begins. *)
Definition data_start (pairs : list SFOPair) (k : nat) : Z :=
  foldl data_end (data_begin pairs) (take k pairs).

Definition label_start (pairs : list SFOPair) (k : nat) : Z :=
  zlen (label_block (take k pairs)).

(** The descriptor of entry [j] after the layout. *)
Definition laid_out (pairs : list SFOPair) (j : nat) (sec : PsfSec) (e : SFOPair) : PsfSec :=
  {| LabelOff := int16 (label_start pairs j);
     SecUnknown := SecUnknown sec;
     DataType := DataType sec;
     DatafieldUsed := used_size e;
     DatafieldSize := reserved_size e;
     DataOff := int32 (data_start pairs j) |}.

(** The header after the layout. *)
Definition laid_out_PsfHdr (parser : SFOParser) : PsfHdr :=
  {| Psf := Psf (parser_PsfHdr parser);
     Unknown := Unknown (parser_PsfHdr parser);
     LabelPtr := fresh_LabelPtr parser;
     DataPtr := int32 (aligned (zlen (label_block (Pairs parser))));
     NSects := NSects (parser_PsfHdr parser) |}.

(** Rounding up to a multiple of 4, in the integers. *)
Definition round_up4 (n : Z) : Z := (n + 3) / 4 * 4.

(** Length of the data block: every value padded to a multiple of 4. *)
Definition padded_length (pairs : list SFOPair) : Z :=
  foldr (λ e acc, round_up4 (zlen (wire e)) + acc) 0 pairs.

(** ** The command ([main.go]) *)

(** What the command writes to standard output, call by call; how [fmt]
    renders the arguments is not modelled. *)
Inductive output : Set :=
  | Println_Error (err : error)                 (* fmt.Println("Error:", err) *)
  | Printf_pair (key : list byte) (v : value).  (* fmt.Printf("%s: %s\n", key, value) *)

(** How the process ends: an exit status or a panic. *)
Inductive exit : Set :=
  | Exit (code : Z)
  | Crash (p : panic).

(** The loop of [main], with [count] turns to go from index [i].  A miss
    of [GetValue] is answered with [return], the other error with
    [os.Exit(1)]. *)
Fixpoint main_loop (parser : SFOParser) (count : nat) (i : Z) : list output * exit :=
  match count with
  | O => ([], Exit 0)
  | S count' =>
      match GetKeyByIndex parser i with
      | Err err => ([Println_Error err], Exit 1)
      | Panic p => ([], Crash p)
      | Ok key =>
          match GetValue parser key with
          | Err err => ([Println_Error err], Exit 0)
          | Panic p => ([], Crash p)
          | Ok v =>
              let '(out, ex) := main_loop parser count' (i + 1) in
              (Printf_pair key v :: out, ex)
          end
      end
  end.

Definition main (fs : gmap string inode) : list output * exit :=
  match NewSFOParser fs "PARAM.sfo" with
  | Err err => ([Println_Error err], Exit 1)
  | Panic p => ([], Crash p)
  | Ok parser => main_loop parser (Z.to_nat (GetLength parser)) 0
  end.

(** ** What the decoder reads *)





(** ============================ Properties ============================ *)

(** Settles a closed goal by running the code. *)
Ltac run := vm_compute; reflexivity.

Lemma wrap_small bits x :
  0 < bits → - 2 ^ (bits - 1) ≤ x < 2 ^ (bits - 1) → wrap bits x = x.
Proof.
  intros Hb Hx. unfold wrap.
  assert (H2 : 2 ^ bits = 2 * 2 ^ (bits - 1)).
  { replace bits with (Z.succ (bits - 1)) at 1 by lia.
    rewrite Z.pow_succ_r by lia. reflexivity. }
  rewrite Z.mod_small by lia. lia.
Qed.

Lemma MaxInt_eq : MaxInt = 9223372036854775807.
Proof. reflexivity. Qed.

Lemma MinInt_eq : MinInt = -9223372036854775808.
Proof. reflexivity. Qed.

Lemma int_small x : MinInt ≤ x ≤ MaxInt → int x = x.
Proof.
  rewrite MaxInt_eq, MinInt_eq. intros H. apply wrap_small; [lia|].
  change (2 ^ (64 - 1)) with 9223372036854775808. lia.
Qed.

Lemma alignment_in_range n :
  0 ≤ n ≤ MaxInt - 3 →
  alignment n 4 = Ok (if n mod 4 =? 0 then n else n + (4 - n mod 4)).
Proof.
  intros Hn. unfold alignment. cbn [Z.eqb]. cbv zeta.
  rewrite Z.rem_mod_nonneg by lia.
  pose proof (Z.mod_pos_bound n 4 ltac:(lia)) as Hm.
  destruct (n mod 4 =? 0) eqn:E; cbn [negb]; [reflexivity|].
  apply Z.eqb_neq in E.
  assert (Hb : MinInt ≤ n + 4 ≤ MaxInt ∧ MinInt ≤ n + 4 - n mod 4 ≤ MaxInt).
  { rewrite MaxInt_eq, MinInt_eq in *.
    assert (n mod 4 = n - 4 * (n / 4)) by (rewrite Z.mod_eq; lia). lia. }
  rewrite (int_small (n + 4)) by tauto.
  rewrite int_small by tauto. f_equal. lia.
Qed.

(** ** Alignment *)

Lemma alignment_multiple n : n mod 4 = 0 → alignment n 4 = Ok n.
Proof.
  intros H. unfold alignment. cbn [Z.eqb]. cbv zeta.
  assert (Hr : Z.rem n 4 = 0).
  { apply Z.rem_divide; [lia|]. apply Z.mod_divide; [lia|]. exact H. }
  rewrite Hr. reflexivity.
Qed.

Lemma round_up_multiple n : n mod 4 ≠ 0 → (n + (4 - n mod 4)) mod 4 = 0.
Proof.
  intros _.
  replace (n + (4 - n mod 4)) with ((n / 4 + 1) * 4).
  - apply Z.mod_mul. lia.
  - rewrite (Z.div_mod n 4) at 2 by lia. lia.
Qed.

(** C5, as stated, fails at the top of [int]: for [n = MaxInt] the sum
    wraps around and [alignment] returns [MinInt]. *)
Lemma alignment_wraps_at_MaxInt :
  0 ≤ MaxInt ∧ MaxInt mod 4 ≠ 0
  ∧ alignment MaxInt 4 = Ok MinInt
  ∧ MinInt ≠ MaxInt + (4 - MaxInt mod 4)
  ∧ ¬ (0 ≤ MinInt - MaxInt ≤ 3).
Proof.
  split; [rewrite MaxInt_eq; lia|]. split; [vm_compute; discriminate|].
  split; [run|].
  rewrite MaxInt_eq, MinInt_eq.
  change (9223372036854775807 mod 4) with 3. lia.
Qed.

(** C5 (amended): for every [n] with [0 <= n <= MaxInt - 3], that is
    whenever the rounded value fits [int], [alignment n 4] is [n] if [n] is
    a multiple of 4 and [n + (4 - n mod 4)] otherwise; aligning the result
    again returns it unchanged, and the result exceeds [n] by 0, 1, 2 or
    3. *)
Theorem alignment_spec n :
  0 ≤ n ≤ MaxInt - 3 →
  ∃ a, alignment n 4 = Ok a
    ∧ (n mod 4 = 0 → a = n)
    ∧ (n mod 4 ≠ 0 → a = n + (4 - n mod 4))
    ∧ alignment a 4 = Ok a
    ∧ 0 ≤ a - n ≤ 3.
Proof.
  intros Hn. rewrite (alignment_in_range n Hn).
  pose proof (Z.mod_pos_bound n 4 ltac:(lia)) as Hm.
  eexists. split; [reflexivity|].
  destruct (n mod 4 =? 0) eqn:E0.
  - apply Z.eqb_eq in E0. repeat split; try lia.
    apply alignment_multiple. exact E0.
  - apply Z.eqb_neq in E0. repeat split; try lia.
    apply alignment_multiple. apply round_up_multiple. exact E0.
Qed.

Lemma alignment_spec_witness :
  alignment 5 4 = Ok 8 ∧ alignment 8 4 = Ok 8.
Proof.
  destruct (alignment_spec 5) as (a & H1 & _ & H3 & H4 & _).
  - rewrite MaxInt_eq. lia.
  - assert (a = 8) as -> by (apply H3; discriminate).
    split; assumption.
Defined.

(** ** Access by position *)

Lemma out_of_range_spec parser index :
  out_of_range parser index = true
  ↔ index < 0 ∨ Z.of_nat (length (Pairs parser)) ≤ index.
Proof.
  unfold out_of_range. rewrite orb_true_iff, Z.ltb_lt, Z.geb_le. lia.
Qed.

Section InRange.
Variable parser : SFOParser.
Variable index : Z.
Variable entry : SFOPair.
Hypothesis index_nonneg : 0 ≤ index.
Hypothesis index_lookup : Pairs parser !! Z.to_nat index = Some entry.

Lemma in_range_guard : out_of_range parser index = false.
Proof.
  destruct (out_of_range parser index) eqn:E; [|reflexivity].
  apply out_of_range_spec in E. apply lookup_lt_Some in index_lookup. lia.
Qed.

Lemma in_range_Pairs_index : Pairs_index parser index = Ok entry.
Proof.
  unfold Pairs_index. destruct (Z.ltb_spec index 0); [lia|].
  rewrite index_lookup. reflexivity.
Qed.

Lemma in_range_update_Pairs f :
  update_Pairs index f parser =
    (mkSFOParser (parser_PsfHdr parser) (parser_PsfSec parser)
                 (alter f (Z.to_nat index) (Pairs parser)) (FilePath parser), Ok tt).
Proof. unfold update_Pairs. rewrite in_range_Pairs_index. reflexivity. Qed.
End InRange.

Lemma guard_passed parser index :
  out_of_range parser index = false →
  0 ≤ index ∧ ∃ entry, Pairs parser !! Z.to_nat index = Some entry.
Proof.
  intros H. apply orb_false_iff in H as [H1 H2].
  apply Z.ltb_ge in H1. rewrite Z.geb_leb in H2. apply Z.leb_gt in H2.
  split; [exact H1|]. apply lookup_lt_is_Some_2. lia.
Qed.

(** Rewrites an in-range access with the facts of [InRange]. *)
Ltac in_range Hi Hl :=
  rewrite ?(in_range_guard _ _ _ Hi Hl), ?(in_range_Pairs_index _ _ _ Hi Hl),
    ?(in_range_update_Pairs _ _ _ Hi Hl).

Lemma SetValueByIndex_not_range_error parser index value :
  out_of_range parser index = false →
  snd (SetValueByIndex parser index value) ≠ Err ErrIndexOutOfRange.
Proof.
  intros H. destruct (guard_passed _ _ H) as (Hi & entry & Hl).
  unfold SetValueByIndex, last_byte. in_range Hi Hl.
  repeat case_match; in_range Hi Hl; cbn; congruence.
Qed.

(** C9: with [n] the number of entries, each of [GetValueByIndex],
    [GetKeyByIndex], [GetTypeByIndex], [SetValueByIndex] and
    [SetLabelByIndex] returns the error "index out of range" if and only if
    [index < 0] or [index >= n]. *)
Theorem index_out_of_range_iff parser index value :
  let outside := index < 0 ∨ Z.of_nat (length (Pairs parser)) ≤ index in
  (GetValueByIndex parser index = Err ErrIndexOutOfRange ↔ outside)
  ∧ (GetKeyByIndex parser index = Err ErrIndexOutOfRange ↔ outside)
  ∧ (GetTypeByIndex parser index = Err ErrIndexOutOfRange ↔ outside)
  ∧ (snd (SetValueByIndex parser index value) = Err ErrIndexOutOfRange ↔ outside)
  ∧ (snd (SetLabelByIndex parser index value) = Err ErrIndexOutOfRange ↔ outside).
Proof.
  intros outside. subst outside. rewrite <- out_of_range_spec.
  destruct (out_of_range parser index) eqn:H.
  - unfold GetValueByIndex, GetKeyByIndex, GetTypeByIndex, SetValueByIndex,
      SetLabelByIndex. rewrite H. cbn. tauto.
  - pose proof (SetValueByIndex_not_range_error parser index value H) as HS.
    destruct (guard_passed _ _ H) as (Hi & entry & Hl).
    unfold GetValueByIndex, GetKeyByIndex, GetTypeByIndex, SetLabelByIndex.
    in_range Hi Hl. cbn.
    repeat split; intros; try discriminate; try contradiction.
Qed.

(** In range the three getters return the field of the entry, and
    [SetLabelByIndex] replaces the label and nothing else. *)
Lemma in_range_access parser index entry value :
  0 ≤ index →
  Pairs parser !! Z.to_nat index = Some entry →
  GetValueByIndex parser index = Ok (Value entry)
  ∧ GetKeyByIndex parser index = Ok (Label entry)
  ∧ GetTypeByIndex parser index = Ok (Type_ entry)
  ∧ ∃ parser', SetLabelByIndex parser index value = (parser', Ok tt)
      ∧ Pairs parser' !! Z.to_nat index = Some (set_Label value entry).
Proof.
  intros Hi Hl.
  unfold GetValueByIndex, GetKeyByIndex, GetTypeByIndex, SetLabelByIndex.
  in_range Hi Hl. repeat split. eexists. split; [reflexivity|]. cbn.
  rewrite list_lookup_alter, Hl. case_decide; [reflexivity | contradiction].
Qed.

(** ** Setting a text value *)

Lemma last_byte_nonempty (value : list byte) :
  value ≠ [] → ∃ b, last_byte value = Ok b.
Proof.
  intros Hv. unfold last_byte.
  destruct (last value) as [b|] eqn:E; [eauto|].
  apply last_None in E. contradiction.
Qed.

(** C10: on an in-range entry of type 2 the empty string makes
    [SetValueByIndex] panic at [value[len(value)-1]] (no error is
    returned, the model is untouched), and every non-empty string is
    stored and [nil] is returned. *)
Theorem SetValueByIndex_text_total_iff_nonempty parser index entry :
  0 ≤ index →
  Pairs parser !! Z.to_nat index = Some entry →
  Type_ entry = StringType →
  SetValueByIndex parser index [] = (parser, Panic PanicIndex)
  ∧ ∀ value, value ≠ [] → snd (SetValueByIndex parser index value) = Ok tt.
Proof.
  intros Hi Hl Ht. unfold SetValueByIndex. in_range Hi Hl. rewrite Ht.
  change (bool_decide (StringType = ByteType)) with false.
  change (bool_decide (StringType = StringType)) with true. cbn match.
  split; [reflexivity|].
  intros value Hv. destruct (last_byte_nonempty value Hv) as [b Hb].
  rewrite Hb. in_range Hi Hl. reflexivity.
Qed.

Lemma SetValueByIndex_text_witness :
  SetValueByIndex example_parser 0 [] = (example_parser, Panic PanicIndex)
  ∧ snd (SetValueByIndex example_parser 0 (list_byte_of_string "Game")) = Ok tt.
Proof.
  destruct (SetValueByIndex_text_total_iff_nonempty example_parser 0 _
              ltac:(lia) eq_refl eq_refl) as [H1 H2].
  split; [exact H1 | apply H2; discriminate].
Defined.

(** ** Decoding: the magic number *)


Lemma ReadFull_start data n :
  (n ≤ length data)%nat →
  ReadFull n (mkFile data 0) = (mkFile data (Z.of_nat n), Ok (take n data)).
Proof.
  intros H. unfold ReadFull, unread. cbn [offset content].
  change (Z.to_nat 0) with 0%nat. rewrite drop_0.
  destruct (Nat.leb_spec n (length data)); [reflexivity | lia].
Qed.





(** ** Decoding: labels *)

(** When both offsets and their sum fit 15 bits the decoder seeks to
    their sum. *)
Lemma label_seek_small hdr sec :
  0 ≤ LabelPtr hdr → 0 ≤ LabelOff sec → LabelPtr hdr + LabelOff sec < 2 ^ 15 →
  label_seek hdr sec = LabelPtr hdr + LabelOff sec.
Proof.
  intros H1 H2 H3. unfold label_seek, int16.
  change (2 ^ 15) with 32768 in H3.
  rewrite (wrap_small 16 (LabelPtr hdr)) by (change (2 ^ (16 - 1)) with 32768; lia).
  rewrite wrap_small by (change (2 ^ (16 - 1)) with 32768; lia). lia.
Qed.

(** C4 fails on the code: in [far_label_file] the header says
    [LabelPtr] = 65572, the descriptor says [LabelOff] = 0, and the label
    "A" stands at position 65572.  The decoder narrows [LabelPtr] to 16
    bits before adding, seeks to 36 and returns the empty label it finds
    there. *)
Theorem NewSFOParser_narrows_LabelPtr :
  let hdr := decode_PsfHdr (take 20 far_label_file) in
  let sec := decode_PsfSec (take 16 (drop 20 far_label_file)) in
  LabelPtr hdr + LabelOff sec = 65572
  ∧ snd (readByteString (mkFile far_label_file 65572)) = Ok (list_byte_of_string "A")
  ∧ label_seek hdr sec = 36
  ∧ ∃ parser, NewSFOParser (on_disk far_label_file) sample_path = Ok parser
      ∧ Label <$> Pairs parser = [ [] ]
      ∧ Value <$> Pairs parser = [VInt32 1].
Proof.
  cbv zeta. split; [run|]. split; [run|].
  split; [run|].
  eexists. split; [run|]. split; run.
Qed.

(** ** Decoding: integer payloads *)

(** A buffer shorter than four bytes under type 4 is a panic. *)
Lemma decode_value_short_int tmpbuffer file :
  (length tmpbuffer < 4)%nat →
  decode_value x04 tmpbuffer file = (file, Panic PanicIndex).
Proof.
  intros H. unfold decode_value. cbn.
  do 4 (destruct tmpbuffer as [|? tmpbuffer]; [reflexivity|]).
  cbn in H. lia.
Qed.

(** C3 fails on the code: with [DatafieldUsed] = 2 under type 4
    ([short_int_file]) the decoder panics in [binary.LittleEndian.Uint32];
    and when the descriptor says 4 bytes and the file ends after 2 of them
    the decoder succeeds, with the missing bytes read as zero. *)
Theorem NewSFOParser_short_int_payload :
  NewSFOParser (on_disk short_int_file) sample_path = Panic PanicIndex
  ∧ length (take 42 sample_file) = 42%nat
  ∧ ∃ parser, NewSFOParser (on_disk (take 42 sample_file)) sample_path = Ok parser
      ∧ Value <$> Pairs parser = [VInt32 1].
Proof.
  split; [run|]. split; [reflexivity|].
  eexists. split; run.
Qed.

(** ** Type tags outside 0, 2 and 4 *)

Lemma decode_value_unknown_tag ty tmpbuffer file :
  unknown_tag ty → decode_value ty tmpbuffer file = (file, Ok VNil).
Proof.
  intros (H0 & H2 & H4). unfold decode_value.
  rewrite !bool_decide_eq_false_2 by assumption. reflexivity.
Qed.

Lemma write_value_unknown_tag entry st :
  unknown_tag (Type_ entry) → write_value entry st = (st, Ok tt).
Proof.
  intros (H0 & H2 & H4). unfold write_value.
  rewrite !bool_decide_eq_false_2 by assumption. reflexivity.
Qed.

Lemma SetValueByIndex_unknown_tag parser index entry value :
  0 ≤ index →
  Pairs parser !! Z.to_nat index = Some entry →
  unknown_tag (Type_ entry) →
  SetValueByIndex parser index value = (parser, Err ErrUnknownType).
Proof.
  intros Hi Hl (H0 & H2 & H4).
  unfold SetValueByIndex. in_range Hi Hl.
  unfold ByteType, StringType, IntType.
  rewrite !bool_decide_eq_false_2 by assumption. reflexivity.
Qed.

(** C8 fails on the code: [tag1_file] carries the type tag 1.
    [NewSFOParser] accepts it, with no value for the entry, and [SaveSFO]
    writes the model back and returns [nil]; only [SetValueByIndex] answers
    "unknown type". *)
Theorem unknown_tag_accepted_by_decoder_and_encoder :
  NewSFOParser (on_disk tag1_file) sample_path = Ok tag1_parser
  ∧ GetTypeByIndex tag1_parser 0 = Ok x01
  ∧ GetValueByIndex tag1_parser 0 = Ok VNil
  ∧ snd (SaveSFO tag1_parser (on_disk tag1_file)) = Ok tt
  ∧ SetValueByIndex tag1_parser 0 (list_byte_of_string "1") = (tag1_parser, Err ErrUnknownType).
Proof. repeat split; run. Qed.

(** ** Encoding *)

Lemma length_le_bytes n z : length (le_bytes n z) = n.
Proof. revert z. induction n as [|n IH]; intros z; cbn; [|rewrite IH]; reflexivity. Qed.

Lemma length_encode_PsfSec sec : length (encode_PsfSec sec) = 16%nat.
Proof.
  unfold encode_PsfSec. rewrite !length_app, !length_le_bytes. reflexivity.
Qed.

Lemma length_encode_PsfHdr hdr : length (encode_PsfHdr hdr) = 20%nat.
Proof.
  unfold encode_PsfHdr, bytes_of_byte4.
  destruct (Psf hdr) as [[[? ?] ?] ?], (Unknown hdr) as [[[? ?] ?] ?].
  rewrite !length_app, !length_le_bytes. reflexivity.
Qed.

Lemma Write_offset bs f : offset (Write bs f) = offset f + Z.of_nat (length bs).
Proof. destruct bs; cbn [Write offset length]; lia. Qed.

(** A write leaves the file behind its last byte as it was. *)
Lemma Write_tail bs f :
  drop (Z.to_nat (offset f) + length bs) (content (Write bs f))
  = drop (Z.to_nat (offset f) + length bs) (content f).
Proof.
  destruct bs as [|b bs]; [reflexivity|].
  unfold Write. cbn [content].
  set (pos := Z.to_nat (offset f)). set (c := content f).
  rewrite !app_assoc. apply drop_app_length'.
  rewrite !length_app, length_take, length_replicate. lia.
Qed.

Lemma write_PsfSecs_tail secs : ∀ f,
  0 ≤ offset f →
  offset (write_PsfSecs secs f) = offset f + 16 * Z.of_nat (length secs)
  ∧ drop (Z.to_nat (offset f) + 16 * length secs) (content (write_PsfSecs secs f))
    = drop (Z.to_nat (offset f) + 16 * length secs) (content f).
Proof.
  induction secs as [|sec secs IH]; intros f Hf.
  - cbn. split; [lia | reflexivity].
  - cbn [write_PsfSecs foldl]. fold (write_PsfSecs secs (Write (encode_PsfSec sec) f)).
    pose proof (Write_offset (encode_PsfSec sec) f) as Ho.
    pose proof (Write_tail (encode_PsfSec sec) f) as Ht.
    rewrite length_encode_PsfSec in Ho, Ht.
    destruct (IH (Write (encode_PsfSec sec) f)) as [IHo IHt]; [lia|].
    split; [rewrite IHo, Ho; cbn [length]; lia|].
    rewrite Ho in IHt.
    replace (Z.to_nat (offset f + Z.of_nat 16) + 16 * length secs)%nat
      with (Z.to_nat (offset f) + 16 * length (sec :: secs))%nat in IHt
      by (cbn [length]; lia).
    rewrite IHt.
    replace (Z.to_nat (offset f) + 16 * length (sec :: secs))%nat
      with (Z.to_nat (offset f) + 16 + 16 * length secs)%nat by (cbn [length]; lia).
    rewrite <- !(drop_drop _ (16 * length secs)), Ht. reflexivity.
Qed.

(** Whatever the model, a successful [SaveSFO] changes nothing in the file
    behind the header and the descriptors: the bytes from offset
    [20 + 16 * len(parser.PsfSec)] on are the ones the file held before. *)
Lemma SaveSFO_keeps_tail parser fs data parser' fs' :
  fs !! FilePath parser = Some (Regular data) →
  SaveSFO parser fs = (parser', fs', Ok tt) →
  ∃ saved,
    fs' = <[FilePath parser := Regular saved]> fs
    ∧ drop (20 + 16 * length (parser_PsfSec parser')) saved
      = drop (20 + 16 * length (parser_PsfSec parser')) data.
Proof.
  intros Hfs HS. unfold SaveSFO in HS. cbv zeta in HS. rewrite Hfs in HS.
  destruct (SaveSFO_layout (mkSaveState parser [])) as [st [[]|e|p]];
    [|discriminate..].
  injection HS as <- <-. eexists. split; [reflexivity|].
  cbn [parser_PsfSec set_PsfHdr].
  set (secs := parser_PsfSec (sv_parser st)).
  change (Seek sizeof_PsfHdr (mkFile data 0)) with (mkFile data 20).
  set (f1 := write_PsfSecs secs (mkFile data 20)).
  destruct (write_PsfSecs_tail secs (mkFile data 20)) as [_ Ht];
    [cbn [offset]; lia|].
  cbn [offset content] in Ht. change (Z.to_nat 20) with 20%nat in Ht.
  fold f1 in Ht. rewrite <- Ht.
  pose proof (Write_tail (encode_PsfHdr (set_LabelPtr
                (fresh_LabelPtr (sv_parser st)) (parser_PsfHdr (sv_parser st))))
              (Seek 0 f1)) as Hh.
  rewrite length_encode_PsfHdr in Hh.
  change (Seek 0 f1) with (mkFile (content f1) 0) in *.
  cbn [offset content] in Hh. change (Z.to_nat 0 + 20)%nat with 20%nat in Hh.
  rewrite <- !(drop_drop _ (16 * length secs)). cbn [parser_PsfHdr].
  rewrite Hh. reflexivity.
Qed.

(** C1 fails on the code: [SaveSFO] fills its buffer with the label block
    and the data block and never writes it.  After the label of
    [sample_file] is changed to "BB" and the model is saved, the file
    holds the new header and descriptor and, behind them, the bytes it
    held before, with the old label. *)
Theorem SaveSFO_does_not_write_buffer :
  NewSFOParser (on_disk sample_file) sample_path = Ok sample_parser
  ∧ SetLabelByIndex sample_parser 0 (list_byte_of_string "BB") = (renamed_parser, Ok tt)
  ∧ ∃ parser' saved buf,
      SaveSFO renamed_parser (on_disk sample_file) = (parser', on_disk saved, Ok tt)
      ∧ sv_buf (fst (SaveSFO_layout (mkSaveState renamed_parser []))) = buf
      ∧ buf = list_byte_of_string "BB" ++ [x00; x00; x01; x00; x00; x00]
      ∧ saved = file_image parser' (drop 36 sample_file)
      ∧ drop 36 saved = list_byte_of_string "A" ++ [x00; x00; x00; x01; x00; x00; x00]
      ∧ saved ≠ file_image parser' buf.
Proof.
  split; [run|]. split; [run|].
  eexists _, _, _. do 5 (split; [run|]).
  vm_compute. discriminate.
Qed.

(** C2 fails on the code: [sample_file] has its data block where its
    header says, and the decoder reads the entry [A] = 1 from it.  Saving
    the unchanged model rewrites [DataPtr] from 40 to 4 and [DataOff] from
    0 to 4, so the file is not the same as before.  The saved file is the
    image of the model with the fields [SaveSFO] computes, and decoding it
    gives [A] = 36. *)
Theorem SaveSFO_after_NewSFOParser_changes_file :
  NewSFOParser (on_disk sample_file) sample_path = Ok sample_parser
  ∧ ∃ parser' saved,
      SaveSFO sample_parser (on_disk sample_file) = (parser', on_disk saved, Ok tt)
      ∧ saved ≠ sample_file
      ∧ DataPtr (parser_PsfHdr sample_parser) = 40
      ∧ DataPtr (parser_PsfHdr parser') = 4
      ∧ DataOff <$> parser_PsfSec sample_parser = [0]
      ∧ DataOff <$> parser_PsfSec parser' = [4]
      ∧ saved = file_image parser' (sv_buf (fst (SaveSFO_layout (mkSaveState sample_parser []))))
      ∧ ∃ reread, NewSFOParser (on_disk saved) sample_path = Ok reread
          ∧ Value <$> Pairs sample_parser = [VInt32 1]
          ∧ Value <$> Pairs reread = [VInt32 36].
Proof.
  split; [run|].
  eexists _, _. split; [run|].
  split; [vm_compute; discriminate|].
  do 5 (split; [run|]).
  eexists. split; [run|]. split; run.
Qed.

(** ** Lookup by key *)

Lemma GetValue_scan_outcome pairs key :
  (GetValue_scan pairs key = Err ErrKeyNotFound ∧ Forall (λ e, Label e ≠ key) pairs)
  ∨ (∃ pre e post, pairs = pre ++ e :: post ∧ Label e = key
       ∧ Forall (λ e', Label e' ≠ key) pre
       ∧ GetValue_scan pairs key = Ok (Value e)).
Proof.
  induction pairs as [|e pairs IH]; [left; split; [reflexivity | constructor]|].
  cbn [GetValue_scan]. unfold bytes_eqb. case_bool_decide as Hk.
  - right. exists [], e, pairs. repeat split; [exact Hk | constructor].
  - destruct IH as [[IH1 IH2] | (pre & e' & post & -> & Hl & Hpre & IH)].
    + left. split; [exact IH1 | constructor; assumption].
    + right. exists (e :: pre), e', post. repeat split; try assumption.
      constructor; assumption.
Qed.

Lemma first_match_unique (key : list byte) (pre pre' : list SFOPair) e e' post post' :
  pre ++ e :: post = pre' ++ e' :: post' →
  Label e = key → Label e' = key →
  Forall (λ x, Label x ≠ key) pre → Forall (λ x, Label x ≠ key) pre' →
  e = e'.
Proof.
  revert pre'. induction pre as [|x pre IH]; intros [|x' pre'] Heq Hl Hl' Hp Hp'.
  - cbn in Heq. congruence.
  - cbn in Heq. injection Heq as -> _. apply Forall_cons in Hp' as [Hx _]. contradiction.
  - cbn in Heq. injection Heq as -> _. apply Forall_cons in Hp as [Hx _]. contradiction.
  - cbn in Heq. injection Heq as -> Heq.
    apply Forall_cons in Hp as [_ Hp]. apply Forall_cons in Hp' as [_ Hp'].
    eapply IH; eassumption.
Qed.

(** X1: [GetValue] returns a value exactly when it is the value of the
    first entry, in table order, whose label equals the key. *)
Theorem GetValue_first_match parser key v :
  GetValue parser key = Ok v
  ↔ ∃ pre e post, Pairs parser = pre ++ e :: post ∧ Label e = key
      ∧ Forall (λ e', Label e' ≠ key) pre ∧ v = Value e.
Proof.
  unfold GetValue.
  destruct (GetValue_scan_outcome (Pairs parser) key)
    as [[H1 H2] | (pre & e & post & Heq & Hl & Hpre & H)].
  - rewrite H1. split; [discriminate|].
    intros (pre & e & post & Heq & Hl & _ & _). rewrite Heq in H2.
    apply Forall_app in H2 as [_ H2]. apply Forall_cons in H2 as [H2 _]. contradiction.
  - rewrite H. split.
    + intros [= <-]. exists pre, e, post. auto.
    + intros (pre' & e' & post' & Heq' & Hl' & Hpre' & ->). rewrite Heq in Heq'.
      f_equal. f_equal. eapply first_match_unique; eassumption.
Qed.

Lemma GetValue_first_match_witness :
  ∃ pre e post, Pairs example_parser = pre ++ e :: post
    ∧ Label e = list_byte_of_string "VERSION"
    ∧ Forall (λ e', Label e' ≠ list_byte_of_string "VERSION") pre
    ∧ VInt32 1 = Value e.
Proof.
  apply (proj1 (GetValue_first_match example_parser (list_byte_of_string "VERSION")
                  (VInt32 1))).
  run.
Defined.

(** X2: [GetValue] fails with "key not found" exactly when no entry
    carries the key, and it has no other way to fail. *)
Theorem GetValue_not_found_iff parser key :
  (GetValue parser key = Err ErrKeyNotFound ↔ Forall (λ e, Label e ≠ key) (Pairs parser))
  ∧ (GetValue parser key = Err ErrKeyNotFound ∨ ∃ v, GetValue parser key = Ok v).
Proof.
  unfold GetValue.
  destruct (GetValue_scan_outcome (Pairs parser) key)
    as [[H1 H2] | (pre & e & post & Heq & Hl & Hpre & H)].
  - rewrite H1. split; [tauto | left; reflexivity].
  - rewrite H. split; [|right; eauto]. split; [discriminate|].
    intros HF. rewrite Heq in HF.
    apply Forall_app in HF as [_ HF]. apply Forall_cons in HF as [HF _]. contradiction.
Qed.

Lemma GetValue_not_found_iff_witness :
  GetValue example_parser (list_byte_of_string "REGION") = Err ErrKeyNotFound.
Proof.
  apply (proj2 (proj1 (GetValue_not_found_iff example_parser
                         (list_byte_of_string "REGION")))).
  repeat constructor; intros H; vm_compute in H; discriminate H.
Defined.

Lemma GetKeyByIndex_Ok parser index key :
  GetKeyByIndex parser index = Ok key →
  0 ≤ index ∧ ∃ entry, Pairs parser !! Z.to_nat index = Some entry ∧ Label entry = key.
Proof.
  unfold GetKeyByIndex. destruct (out_of_range parser index) eqn:H; [discriminate|].
  destruct (guard_passed _ _ H) as (Hi & entry & Hl). in_range Hi Hl.
  intros [= <-]. eauto.
Qed.

(** X3: the key found at a position always resolves ([GetValue] of
    [GetKeyByIndex] never misses), to the value of the first entry with
    that label; when the labels are pairwise distinct this is the value at
    the position itself. *)
Theorem GetValue_of_GetKeyByIndex parser index key :
  GetKeyByIndex parser index = Ok key →
  ∃ v, GetValue parser key = Ok v
    ∧ (NoDup (Label <$> Pairs parser) → GetValueByIndex parser index = Ok v).
Proof.
  intros HK. destruct (GetKeyByIndex_Ok _ _ _ HK) as (Hi & entry & Hl & Hlab).
  unfold GetValue.
  destruct (GetValue_scan_outcome (Pairs parser) key)
    as [[_ Hnf] | (pre & e & post & Heq & Hle & Hpre & Hv)].
  - rewrite Forall_lookup in Hnf. specialize (Hnf _ _ Hl). contradiction.
  - exists (Value e). split; [exact Hv|]. intros Hnd.
    unfold GetValueByIndex. in_range Hi Hl. f_equal. f_equal.
    assert (Hi' : (Label <$> Pairs parser) !! Z.to_nat index = Some key)
      by (rewrite list_lookup_fmap, Hl; cbn; congruence).
    assert (Hj : (Label <$> Pairs parser) !! length pre = Some key).
    { rewrite list_lookup_fmap, Heq, list_lookup_middle by reflexivity. cbn. congruence. }
    pose proof (NoDup_lookup _ _ _ _ Hnd Hi' Hj) as Hij.
    rewrite Heq, Hij, list_lookup_middle in Hl by reflexivity. congruence.
Qed.

Lemma GetValue_of_GetKeyByIndex_witness :
  GetValue example_parser (list_byte_of_string "VERSION") = Ok (VInt32 1).
Proof.
  destruct (GetValue_of_GetKeyByIndex example_parser 1 (list_byte_of_string "VERSION"))
    as (v & Hv & Hnd); [run|].
  rewrite Hv. rewrite <- Hnd; [run|].
  cbn. apply NoDup_cons. split; [|apply NoDup_singleton].
  intros H%list_elem_of_singleton. discriminate H.
Defined.

(** ** Mutation by position *)

Lemma fmap_alter_same {A B} (g : A → B) (f : A → A) (i : nat) (l : list A) :
  (∀ x, g (f x) = g x) → g <$> alter f i l = g <$> l.
Proof.
  intros H. revert i. induction l as [|x l IH]; intros [|i]; cbn; [reflexivity..| |].
  - rewrite H. reflexivity.
  - f_equal. apply IH.
Qed.

(** The ways [SetValueByIndex] can end: without [nil] and without a
    change, or with [nil] and one value replaced by what the entry's tag
    asks for. *)
Lemma SetValueByIndex_cases parser index value :
  (∃ r, r ≠ Ok tt ∧ SetValueByIndex parser index value = (parser, r))
  ∨ (∃ entry v,
       0 ≤ index ∧ Pairs parser !! Z.to_nat index = Some entry
       ∧ SetValueByIndex parser index value
         = (mkSFOParser (parser_PsfHdr parser) (parser_PsfSec parser)
              (alter (set_Value v) (Z.to_nat index) (Pairs parser)) (FilePath parser),
            Ok tt)
       ∧ ((Type_ entry = ByteType ∧ v = VBytes value)
          ∨ (Type_ entry = StringType
             ∧ ∃ b, last value = Some b
                 ∧ v = VString (if bool_decide (b = x00) then value else value ++ [x00]))
          ∨ (Type_ entry = IntType ∧ ∃ n, Sscanf_d value = inr n ∧ v = VInt32 n))).
Proof.
  unfold SetValueByIndex.
  destruct (out_of_range parser index) eqn:H.
  { left. eexists. split; [|reflexivity]. discriminate. }
  destruct (guard_passed _ _ H) as (Hi & entry & Hl). in_range Hi Hl.
  case_bool_decide as H0.
  { right. exists entry, (VBytes value). auto 10. }
  case_bool_decide as H2.
  { unfold last_byte. destruct (last value) as [b|] eqn:Hb.
    - right. in_range Hi Hl. eexists entry, _. split; [exact Hi|]. split; [exact Hl|].
      split; [reflexivity|]. right. left. split; [exact H2|]. exists b.
      split; [reflexivity|]. destruct (bool_decide (b = x00)); reflexivity.
    - left. eexists. split; [|reflexivity]. discriminate. }
  case_bool_decide as H4.
  { destruct (Sscanf_d value) as [f|n] eqn:Hs.
    - left. eexists. split; [|reflexivity]. discriminate.
    - right. in_range Hi Hl. exists entry, (VInt32 n). eauto 10. }
  left. eexists. split; [|reflexivity]. discriminate.
Qed.

(** X4: whatever its outcome, [SetValueByIndex] keeps the header, the
    descriptors, the path, the number of entries, every label, every type
    tag and every entry at another position; unless it returns [nil] it
    changes nothing at all. *)
Theorem SetValueByIndex_frame parser index value :
  let parser' := fst (SetValueByIndex parser index value) in
  parser_PsfHdr parser' = parser_PsfHdr parser
  ∧ parser_PsfSec parser' = parser_PsfSec parser
  ∧ FilePath parser' = FilePath parser
  ∧ length (Pairs parser') = length (Pairs parser)
  ∧ Label <$> Pairs parser' = Label <$> Pairs parser
  ∧ Type_ <$> Pairs parser' = Type_ <$> Pairs parser
  ∧ (∀ j, j ≠ Z.to_nat index → Pairs parser' !! j = Pairs parser !! j)
  ∧ (snd (SetValueByIndex parser index value) ≠ Ok tt → parser' = parser).
Proof.
  cbv zeta.
  destruct (SetValueByIndex_cases parser index value)
    as [(r & Hr & ->) | (entry & v & Hi & Hl & -> & _)]; cbn [fst snd].
  - repeat split; auto.
  - cbn [parser_PsfHdr parser_PsfSec FilePath Pairs].
    repeat split; try reflexivity.
    + apply length_alter.
    + apply fmap_alter_same. reflexivity.
    + apply fmap_alter_same. reflexivity.
    + intros j Hj. apply list_lookup_alter_ne. congruence.
    + intros Hn. contradiction.
Qed.

Lemma SetValueByIndex_frame_witness :
  fst (SetValueByIndex sample_parser 5 [x41]) = sample_parser.
Proof.
  pose proof (SetValueByIndex_frame sample_parser 5 [x41]) as H. cbv zeta in H.
  destruct H as (_ & _ & _ & _ & _ & _ & _ & H). apply H.
  vm_compute. discriminate.
Defined.

(** X5: a value of type 0 is stored byte for byte, the empty string
    included, and read back by [GetValueByIndex]. *)
Theorem SetValueByIndex_bytes_roundtrip parser index entry value :
  0 ≤ index →
  Pairs parser !! Z.to_nat index = Some entry →
  Type_ entry = ByteType →
  ∃ parser', SetValueByIndex parser index value = (parser', Ok tt)
    ∧ GetValueByIndex parser' index = Ok (VBytes value).
Proof.
  intros Hi Hl Ht. unfold SetValueByIndex. in_range Hi Hl. rewrite Ht.
  change (bool_decide (ByteType = ByteType)) with true. cbn match.
  eexists. split; [reflexivity|].
  unfold GetValueByIndex, out_of_range, Pairs_index. cbn [Pairs].
  rewrite length_alter. fold (out_of_range parser index).
  rewrite (in_range_guard _ _ _ Hi Hl).
  destruct (Z.ltb_spec index 0); [lia|].
  rewrite list_lookup_alter, Hl. case_decide; [reflexivity | contradiction].
Qed.

Lemma SetValueByIndex_bytes_roundtrip_witness :
  ∃ parser', SetValueByIndex tag0_parser 0 [] = (parser', Ok tt)
    ∧ GetValueByIndex parser' 0 = Ok (VBytes []).
Proof.
  eapply (SetValueByIndex_bytes_roundtrip tag0_parser 0); [lia | reflexivity..].
Defined.

Lemma alter_twice {A} (f g : A → A) (i : nat) (l : list A) :
  (∀ x, g (f x) = f x) → alter g i (alter f i l) = alter f i l.
Proof.
  intros H. revert i. induction l as [|x l IH]; intros [|i]; cbn; [reflexivity..| |].
  - rewrite H. reflexivity.
  - f_equal. apply IH.
Qed.

(** Reading a position of a table in which that position was altered. *)
Lemma getters_after_alter parser index entry f :
  0 ≤ index →
  Pairs parser !! Z.to_nat index = Some entry →
  let parser' := mkSFOParser (parser_PsfHdr parser) (parser_PsfSec parser)
                   (alter f (Z.to_nat index) (Pairs parser)) (FilePath parser) in
  GetValueByIndex parser' index = Ok (Value (f entry))
  ∧ GetKeyByIndex parser' index = Ok (Label (f entry))
  ∧ GetTypeByIndex parser' index = Ok (Type_ (f entry)).
Proof.
  intros Hi Hl parser'.
  assert (Hl' : Pairs parser' !! Z.to_nat index = Some (f entry)).
  { subst parser'. cbn [Pairs]. rewrite list_lookup_alter, Hl.
    case_decide; [reflexivity | contradiction]. }
  unfold GetValueByIndex, GetKeyByIndex, GetTypeByIndex. in_range Hi Hl'. auto.
Qed.

Lemma last_snoc_byte (l : list byte) (b : byte) : last (l ++ [b]) = Some b.
Proof. apply last_snoc. Qed.

(** X6: a non-empty text stored in an entry of type 2 always ends with a
    zero byte: it is kept as given when it already ends with one, and one
    zero byte is appended otherwise.  Storing the stored text once more
    changes nothing. *)
Theorem SetValueByIndex_text_terminator parser index entry value :
  0 ≤ index →
  Pairs parser !! Z.to_nat index = Some entry →
  Type_ entry = StringType →
  value ≠ [] →
  ∃ parser' stored,
    SetValueByIndex parser index value = (parser', Ok tt)
    ∧ GetValueByIndex parser' index = Ok (VString stored)
    ∧ last stored = Some x00
    ∧ (last value = Some x00 → stored = value)
    ∧ (last value ≠ Some x00 → stored = value ++ [x00])
    ∧ SetValueByIndex parser' index stored = (parser', Ok tt).
Proof.
  intros Hi Hl Ht Hv.
  destruct (last value) as [b|] eqn:Hb; [|apply last_None in Hb; contradiction].
  set (stored := if bool_decide (b = x00) then value else value ++ [x00]).
  assert (Hlast : last stored = Some x00).
  { subst stored. case_bool_decide as E; [congruence | apply last_snoc]. }
  assert (Hset : ∀ p e, Pairs p !! Z.to_nat index = Some e → Type_ e = StringType →
            ∀ val c, last val = Some c →
            SetValueByIndex p index val
            = (mkSFOParser (parser_PsfHdr p) (parser_PsfSec p)
                 (alter (set_Value (VString (if bool_decide (c = x00) then val
                                              else val ++ [x00])))
                        (Z.to_nat index) (Pairs p)) (FilePath p), Ok tt)).
  { intros p e Hp He val c Hc. unfold SetValueByIndex, last_byte. in_range Hi Hp.
    rewrite He, Hc.
    change (bool_decide (StringType = ByteType)) with false.
    change (bool_decide (StringType = StringType)) with true. cbn match.
    in_range Hi Hp. destruct (bool_decide (c = x00)); reflexivity. }
  eexists _, stored. split; [apply (Hset _ _ Hl Ht _ _ Hb)|].
  split; [apply (proj1 (getters_after_alter _ _ _ (set_Value (VString stored)) Hi Hl))|].
  split; [exact Hlast|].
  split; [intros [= ->]; reflexivity|].
  split.
  { intros Hne. subst stored. case_bool_decide as E; [congruence | reflexivity]. }
  rewrite (Hset _ (set_Value (VString stored) entry)) with (c := x00);
    [|cbn [Pairs]; rewrite list_lookup_alter, Hl;
      case_decide; [reflexivity | contradiction] | exact Ht | exact Hlast].
  cbn [parser_PsfHdr parser_PsfSec Pairs FilePath].
  change (bool_decide (x00 = x00)) with true. cbn match.
  rewrite alter_twice; reflexivity.
Qed.

Lemma SetValueByIndex_text_terminator_witness :
  ∃ parser',
    SetValueByIndex example_parser 0 (list_byte_of_string "Demo") = (parser', Ok tt)
    ∧ GetValueByIndex parser' 0 = Ok (VString (list_byte_of_string "Demo" ++ [x00])).
Proof.
  destruct (SetValueByIndex_text_terminator example_parser 0 _ (list_byte_of_string "Demo")
              ltac:(lia) eq_refl eq_refl ltac:(discriminate))
    as (parser' & stored & H1 & H2 & _ & _ & H5 & _).
  exists parser'. split; [exact H1|]. rewrite H2, H5; [reflexivity | discriminate].
Defined.

(** ** Scanning decimal numerals *)

Lemma wrap_range bits x :
  0 < bits → - 2 ^ (bits - 1) ≤ wrap bits x < 2 ^ (bits - 1).
Proof.
  intros Hb. unfold wrap.
  assert (H2 : 2 ^ bits = 2 * 2 ^ (bits - 1)).
  { replace bits with (Z.succ (bits - 1)) at 1 by lia.
    rewrite Z.pow_succ_r by lia. reflexivity. }
  assert (0 < 2 ^ (bits - 1)) by (apply Z.pow_pos_nonneg; lia).
  pose proof (Z.mod_pos_bound (x + 2 ^ (bits - 1)) (2 ^ bits) ltac:(lia)). lia.
Qed.

(** ** Setting an integer value *)

Lemma seen_below count s : count < hugeWid → seen count s = s.
Proof. intros H. unfold seen. destruct (Z.leb_spec hugeWid count); [lia | reflexivity]. Qed.

Lemma is_space2_first b0 b1 : is_space2 b0 b1 = true → b0 = xc2.
Proof.
  unfold is_space2. intros H. apply andb_true_iff in H as [H _].
  apply bool_decide_eq_true in H. exact H.
Qed.

Lemma is_space3_first b0 b1 b2 :
  is_space3 b0 b1 b2 = true → b0 = xe1 ∨ b0 = xe2 ∨ b0 = xe3.
Proof.
  unfold is_space3. rewrite !orb_true_iff, !andb_true_iff, !bool_decide_eq_true.
  tauto.
Qed.

(** One white-space rune is consumed and counted. *)
Lemma SkipSpace_white_space count r s :
  white_space r → count < hugeWid →
  SkipSpace count (r ++ s) = SkipSpace (count + 1) s.
Proof.
  intros Hr Hc.
  destruct r as [|b0 [|b1 [|b2 [|b3 r] ] ] ]; try contradiction; cbn [white_space] in Hr;
    cbn [app SkipSpace]; destruct (Z.leb_spec hugeWid count); try lia.
  - destruct Hr as [Hs Hn]. rewrite bool_decide_eq_false_2 by exact Hn.
    rewrite Hs. reflexivity.
  - apply is_space2_first in Hr as Hb. subst b0.
    change (bool_decide (xc2 = x0a)) with false.
    change (is_ascii_space xc2) with false. cbv iota. rewrite Hr. reflexivity.
  - destruct (is_space3_first _ _ _ Hr) as [-> | [-> | ->] ].
    + change (bool_decide (xe1 = x0a)) with false.
      change (is_ascii_space xe1) with false.
      change (is_space2 xe1 b1) with false. cbv iota. rewrite Hr. reflexivity.
    + change (bool_decide (xe2 = x0a)) with false.
      change (is_ascii_space xe2) with false.
      change (is_space2 xe2 b1) with false. cbv iota. rewrite Hr. reflexivity.
    + change (bool_decide (xe3 = x0a)) with false.
      change (is_ascii_space xe3) with false.
      change (is_space2 xe3 b1) with false. cbv iota. rewrite Hr. reflexivity.
Qed.

Lemma SkipSpace_spaces ws : ∀ count s,
  Forall white_space ws →
  count + Z.of_nat (length ws) ≤ hugeWid →
  SkipSpace count (concat ws ++ s) = SkipSpace (count + Z.of_nat (length ws)) s.
Proof.
  induction ws as [|r ws IH]; intros count s Hws Hle.
  - cbn. rewrite Z.add_0_r. reflexivity.
  - apply Forall_cons in Hws as [Hr Hws]. cbn [concat length] in *.
    rewrite <- app_assoc, SkipSpace_white_space by (assumption || lia).
    rewrite IH by (assumption || lia). f_equal. lia.
Qed.

(** A sign or a digit is no white space: the scan starts right there. *)
Lemma SkipSpace_token count b s :
  (is_digit b || bool_decide (b = x2d) || bool_decide (b = x2b)) = true →
  SkipSpace count (b :: s) = inr (count, b :: s).
Proof.
  intros H. cbn [SkipSpace]. destruct (hugeWid <=? count); [reflexivity|].
  destruct b; try discriminate H; destruct s as [|b1 [|b2 s3]]; reflexivity.
Qed.

(** What [SkipSpace] has consumed when it ends without error. *)
Lemma SkipSpace_inr n : ∀ s count count' s',
  (length s ≤ n)%nat →
  SkipSpace count s = inr (count', s') →
  ∃ ws, s = concat ws ++ s' ∧ Forall white_space ws
    ∧ count' = count + Z.of_nat (length ws).
Proof.
  assert (Hstop : ∀ s count, ∃ ws : list (list byte),
            s = concat ws ++ s ∧ Forall white_space ws
            ∧ count = count + Z.of_nat (length ws)).
  { intros s count. exists []. cbn. split; [reflexivity|]. split; [constructor | lia]. }
  induction n as [|n IH]; intros s count count' s' Hn HS.
  - destruct s; [|cbn in Hn; lia]. cbn in HS.
    destruct (hugeWid <=? count); injection HS as <- <-; apply Hstop.
  - destruct s as [|b0 s1].
    { cbn in HS. destruct (hugeWid <=? count); injection HS as <- <-; apply Hstop. }
    cbn [SkipSpace] in HS. cbn [length] in Hn.
    destruct (hugeWid <=? count); [injection HS as <- <-; apply Hstop|].
    case_bool_decide as H0; [discriminate|].
    destruct (is_ascii_space b0) eqn:Ha.
    { apply IH in HS as (ws & -> & Hws & ->); [|lia].
      exists ([b0] :: ws). cbn [concat app length]. split; [reflexivity|].
      split; [constructor; [split; assumption | assumption] | lia]. }
    destruct s1 as [|b1 s2]; [injection HS as <- <-; apply Hstop|].
    cbn [length] in Hn.
    destruct (is_space2 b0 b1) eqn:H2.
    { apply IH in HS as (ws & -> & Hws & ->); [|lia].
      exists ([b0; b1] :: ws). cbn [concat app length]. split; [reflexivity|].
      split; [constructor; assumption | lia]. }
    destruct s2 as [|b2 s3]; [injection HS as <- <-; apply Hstop|].
    cbn [length] in Hn.
    destruct (is_space3 b0 b1 b2) eqn:H3.
    { apply IH in HS as (ws & -> & Hws & ->); [|lia].
      exists ([b0; b1; b2] :: ws). cbn [concat app length]. split; [reflexivity|].
      split; [constructor; assumption | lia]. }
    injection HS as <- <-. apply Hstop.
Qed.

Lemma accept_sign_digit count d s :
  is_digit d = true → accept_sign count (d :: s) = (false, count, d :: s).
Proof.
  intros H. unfold accept_sign, seen. destruct (hugeWid <=? count); [reflexivity|].
  destruct d; try discriminate H; reflexivity.
Qed.

(** The sign that [accept_sign] took, if any. *)
Lemma accept_sign_spec count s neg count' s' :
  accept_sign count s = (neg, count', s') →
  ∃ sign, s = sign ++ s' ∧ count' = count + Z.of_nat (length sign)
    ∧ (neg = false ∧ (sign = [] ∨ sign = [x2b]) ∨ neg = true ∧ sign = [x2d]).
Proof.
  unfold accept_sign, seen. destruct (hugeWid <=? count).
  { intros [= <- <- <-]. exists []. cbn. repeat split; try lia; auto. }
  destruct s as [|b rest].
  { intros [= <- <- <-]. exists []. cbn. repeat split; try lia; auto. }
  case_bool_decide as Hm; [|case_bool_decide as Hp].
  - intros [= <- <- <-]. subst b. exists [x2d]. cbn. repeat split; try lia; auto.
  - intros [= <- <- <-]. subst b. exists [x2b]. cbn. repeat split; try lia; auto.
  - intros [= <- <- <-]. exists []. cbn. repeat split; try lia; auto.
Qed.

(** The digits [accept_digits] takes: all of them up to the first byte
    that is no digit, or up to the limit of runes. *)
Lemma accept_digits_spec s : ∀ count,
  count ≤ hugeWid →
  ∃ rest, s = accept_digits count s ++ rest
    ∧ Forall (λ d, is_digit d = true) (accept_digits count s)
    ∧ count + Z.of_nat (length (accept_digits count s)) ≤ hugeWid
    ∧ (count + Z.of_nat (length (accept_digits count s)) = hugeWid
       ∨ ∀ d, head rest = Some d → is_digit d = false).
Proof.
  induction s as [|d s IH]; intros count Hc; cbn [accept_digits].
  - exists []. destruct (Z.leb_spec hugeWid count); cbn;
      (split; [reflexivity|]; split; [constructor|]; split; [lia|]).
    + left. lia.
    + right. intros ? [=].
  - destruct (Z.leb_spec hugeWid count).
    { exists (d :: s). cbn. split; [reflexivity|]. split; [constructor|].
      split; [lia|]. left. lia. }
    destruct (is_digit d) eqn:Hd.
    + destruct (IH (count + 1)) as (rest & Hs & HF & Hle & Hend); [lia|].
      exists rest. cbn [app length]. split; [f_equal; exact Hs|].
      split; [constructor; assumption|]. split; [lia|].
      destruct Hend as [Hend|Hend]; [left; lia | right; exact Hend].
    + exists (d :: s). cbn. split; [reflexivity|]. split; [constructor|].
      split; [lia|]. right. intros d' [= <-]. exact Hd.
Qed.

Lemma accept_digits_run ds rest : ∀ count,
  Forall (λ d, is_digit d = true) ds →
  count + Z.of_nat (length ds) ≤ hugeWid →
  (count + Z.of_nat (length ds) = hugeWid
   ∨ ∀ d, head rest = Some d → is_digit d = false) →
  accept_digits count (ds ++ rest) = ds.
Proof.
  induction ds as [|d ds IH]; intros count Hds Hle Hend.
  - cbn [app length] in *.
    destruct rest as [|d r]; cbn [accept_digits];
      destruct (Z.leb_spec hugeWid count); try reflexivity.
    destruct Hend as [Hend|Hend]; [lia|]. rewrite (Hend d eq_refl). reflexivity.
  - apply Forall_cons in Hds as [Hd Hds]. cbn [app accept_digits length] in *.
    destruct (Z.leb_spec hugeWid count); [lia|]. rewrite Hd. f_equal.
    apply IH; [assumption | lia |].
    destruct Hend as [Hend|Hend]; [left; lia | right; exact Hend].
Qed.

Lemma scanNumber_inr count s tok :
  count ≤ hugeWid →
  scanNumber count s = inr tok →
  ∃ rest, s = tok ++ rest ∧ tok ≠ []
    ∧ Forall (λ d, is_digit d = true) tok
    ∧ count + Z.of_nat (length tok) ≤ hugeWid
    ∧ (count + Z.of_nat (length tok) = hugeWid
       ∨ ∀ d, head rest = Some d → is_digit d = false).
Proof.
  intros Hc. unfold scanNumber, seen.
  destruct (Z.leb_spec hugeWid count) as [|Hlt]; [discriminate|].
  destruct s as [|d s]; [discriminate|].
  destruct (is_digit d) eqn:Hd; [|discriminate]. cbn [negb]. intros [= <-].
  destruct (accept_digits_spec (d :: s) count Hc) as (rest & Hs & HF & Hle & Hend).
  exists rest. repeat split; try assumption.
  cbn [accept_digits]. destruct (Z.leb_spec hugeWid count); [lia|].
  rewrite Hd. discriminate.
Qed.

Lemma scanNumber_run count ds rest :
  ds ≠ [] →
  Forall (λ d, is_digit d = true) ds →
  count + Z.of_nat (length ds) ≤ hugeWid →
  (count + Z.of_nat (length ds) = hugeWid
   ∨ ∀ d, head rest = Some d → is_digit d = false) →
  scanNumber count (ds ++ rest) = inr ds.
Proof.
  intros Hne Hds Hle Hend. unfold scanNumber.
  rewrite accept_digits_run by assumption.
  destruct ds as [|d ds]; [contradiction|].
  apply Forall_cons in Hds as [Hd _]. cbn [length] in Hle.
  rewrite seen_below by lia. cbn [app]. rewrite Hd. reflexivity.
Qed.

Lemma scanInt32_inr neg tok i :
  scanInt32 neg tok = inr i →
  i = (if neg then - decimal tok else decimal tok) ∧ - 2 ^ 31 ≤ i < 2 ^ 31.
Proof.
  unfold scanInt32. set (n := if neg then _ else _).
  destruct ((n <? MinInt) || (MaxInt <? n)); [discriminate|].
  destruct (negb (int32 n =? n)) eqn:E; [discriminate|].
  intros [= <-]. split; [reflexivity|].
  apply negb_false_iff, Z.eqb_eq in E. rewrite <- E.
  pose proof (wrap_range 32 n ltac:(lia)) as Hw.
  change (32 - 1) with 31 in Hw. exact Hw.
Qed.

Lemma scanInt32_fits (neg : bool) tok :
  - 2 ^ 31 ≤ (if neg then - decimal tok else decimal tok) < 2 ^ 31 →
  scanInt32 neg tok = inr (if neg then - decimal tok else decimal tok).
Proof.
  unfold scanInt32. set (n := if neg then _ else _). intros Hn.
  change (2 ^ 31) with 2147483648 in Hn.
  assert (Hrange : ((n <? MinInt) || (MaxInt <? n)) = false).
  { rewrite MinInt_eq, MaxInt_eq.
    apply orb_false_iff. split; [apply Z.ltb_ge | apply Z.ltb_ge]; lia. }
  assert (H32 : (int32 n =? n) = true).
  { apply Z.eqb_eq. apply wrap_small; [lia|]. change (32 - 1) with 31.
    change (2 ^ 31) with 2147483648. lia. }
  rewrite Hrange, H32. reflexivity.
Qed.

(** [Sscanf] succeeds on the strings that start with a numeral. *)
Lemma Sscanf_d_leading value i : leading_int32 value i → Sscanf_d value = inr i.
Proof.
  intros (ws & sign & ds & rest & -> & Hws & Hsign & Hne & Hds & Hle & Hend & Hr).
  destruct ds as [|d ds']; [contradiction|].
  apply Forall_cons in Hds as Hd'. destruct Hd' as [Hd _].
  unfold Sscanf_d. rewrite SkipSpace_spaces by (assumption || lia).
  rewrite Z.add_0_l. set (k := Z.of_nat (length ws)).
  assert (Hk : k + Z.of_nat (length sign) + Z.of_nat (length (d :: ds')) ≤ hugeWid)
    by (subst k; lia).
  assert (Hend' : k + Z.of_nat (length sign) + Z.of_nat (length (d :: ds')) = hugeWid
                  ∨ ∀ d, head rest = Some d → is_digit d = false).
  { destruct Hend as [Hend|Hend]; [left; subst k; lia | right; exact Hend]. }
  clearbody k. clear Hle Hend. cbn [length] in Hk.
  destruct Hsign as [ [ [-> | ->] ->] | [-> ->] ]; cbn [length] in Hk, Hend'.
  - cbn [app]. rewrite SkipSpace_token by (rewrite Hd; reflexivity).
    rewrite seen_below by lia. rewrite accept_sign_digit by exact Hd.
    change (d :: ds' ++ rest) with ((d :: ds') ++ rest).
    rewrite scanNumber_run; [| discriminate | assumption | cbn [length]; lia
                             | cbn [length]; destruct Hend'; [left; lia | right; assumption]].
    apply (scanInt32_fits false). exact Hr.
  - cbn [app]. rewrite SkipSpace_token by reflexivity.
    rewrite seen_below by lia.
    assert (Hs : accept_sign k (x2b :: d :: ds' ++ rest) = (false, k + 1, d :: ds' ++ rest)).
    { unfold accept_sign. rewrite seen_below by lia. reflexivity. }
    rewrite Hs. change (d :: ds' ++ rest) with ((d :: ds') ++ rest).
    rewrite scanNumber_run; [| discriminate | assumption | cbn [length]; lia
                             | cbn [length]; destruct Hend'; [left; lia | right; assumption]].
    apply (scanInt32_fits false). exact Hr.
  - cbn [app]. rewrite SkipSpace_token by reflexivity.
    rewrite seen_below by lia.
    assert (Hs : accept_sign k (x2d :: d :: ds' ++ rest) = (true, k + 1, d :: ds' ++ rest)).
    { unfold accept_sign. rewrite seen_below by lia. reflexivity. }
    rewrite Hs. change (d :: ds' ++ rest) with ((d :: ds') ++ rest).
    rewrite scanNumber_run; [| discriminate | assumption | cbn [length]; lia
                             | cbn [length]; destruct Hend'; [left; lia | right; assumption]].
    apply (scanInt32_fits true). exact Hr.
Qed.

(** And on no other string. *)
Lemma Sscanf_d_inr value i : Sscanf_d value = inr i → leading_int32 value i.
Proof.
  unfold Sscanf_d.
  destruct (SkipSpace 0 value) as [f|[k s]] eqn:HS; [discriminate|].
  apply (SkipSpace_inr (length value)) in HS as (ws & -> & Hws & ->); [|lia].
  rewrite Z.add_0_l. unfold seen at 1.
  destruct (Z.leb_spec hugeWid (Z.of_nat (length ws))) as [|Hk]; [discriminate|].
  destruct s as [|b s]; [discriminate|].
  destruct (accept_sign (Z.of_nat (length ws)) (b :: s)) as [[neg count] s'] eqn:Hsign.
  apply accept_sign_spec in Hsign as (sign & Hs & -> & Hneg).
  destruct (scanNumber _ s') as [f|tok] eqn:Htok; [discriminate|].
  assert (Hc : Z.of_nat (length ws) + Z.of_nat (length sign) ≤ hugeWid).
  { destruct Hneg as [ [_ [-> | ->] ] | [_ ->] ]; cbn [length]; lia. }
  apply scanNumber_inr in Htok as (rest & -> & Hne & Hds & Hle & Hend); [|exact Hc].
  intros Hi. apply scanInt32_inr in Hi as [Hi Hr].
  exists ws, sign, tok, rest. rewrite Hs.
  split; [reflexivity|]. split; [exact Hws|].
  split. { destruct Hneg as [[-> Hsg]|[-> Hsg]]; [left | right]; split; assumption. }
  split; [exact Hne|]. split; [exact Hds|].
  split; [lia|]. split; [|exact Hr].
  destruct Hend as [Hend|Hend]; [left; lia | right; exact Hend].
Qed.

Lemma Sscanf_d_int32 value n : Sscanf_d value = inr n → - 2 ^ 31 ≤ n ≤ 2 ^ 31 - 1.
Proof.
  intros H. apply Sscanf_d_inr in H as (? & ? & ? & ? & _ & _ & _ & _ & _ & _ & _ & Hr).
  lia.
Qed.

(** What [SetValueByIndex] makes of the two outcomes of the scan. *)
Lemma SetValueByIndex_int parser index entry value :
  0 ≤ index →
  Pairs parser !! Z.to_nat index = Some entry →
  Type_ entry = IntType →
  match Sscanf_d value with
  | inl f => SetValueByIndex parser index value = (parser, Err (ErrScan f))
  | inr i => ∃ parser', SetValueByIndex parser index value = (parser', Ok tt)
                        ∧ GetValueByIndex parser' index = Ok (VInt32 i)
  end.
Proof.
  intros Hi Hl Ht. unfold SetValueByIndex. in_range Hi Hl. rewrite Ht.
  change (bool_decide (IntType = ByteType)) with false.
  change (bool_decide (IntType = StringType)) with false.
  change (bool_decide (IntType = IntType)) with true. cbv iota.
  destruct (Sscanf_d value) as [f|i]; [reflexivity|].
  in_range Hi Hl. eexists. split; [reflexivity|].
  apply (proj1 (getters_after_alter _ _ _ (set_Value (VInt32 _)) Hi Hl)).
Qed.

(** C6, as stated, fails: "12abc" is not a number, and an entry of type 4
    takes the value 12 from it; [nil] is returned. *)
Lemma SetValueByIndex_int_accepts_prefix :
  numeric (list_byte_of_string "12abc") = false
  ∧ GetTypeByIndex sample_parser 0 = Ok IntType
  ∧ ∃ parser', SetValueByIndex sample_parser 0 (list_byte_of_string "12abc") = (parser', Ok tt)
      ∧ GetValueByIndex sample_parser 0 = Ok (VInt32 1)
      ∧ GetValueByIndex parser' 0 = Ok (VInt32 12).
Proof.
  split; [run|]. split; [run|].
  eexists. split; [run|].
  split; run.
Qed.

(** C6 (amended): on an in-range entry of type 4, [SetValueByIndex] fails
    with the error of the scan and leaves the model as it was for exactly
    the strings that do not start with a numeral: white space, an optional
    sign, and a non-empty run of decimal digits whose value fits 32 bits,
    all within the 2^30 runes that [fmt] reads.  A string that does start
    with one is accepted whatever follows the digits, and the number is
    stored. *)
Theorem SetValueByIndex_int_scan_failure parser index entry value :
  0 ≤ index →
  Pairs parser !! Z.to_nat index = Some entry →
  Type_ entry = IntType →
  ((∃ f, SetValueByIndex parser index value = (parser, Err (ErrScan f)))
   ↔ ∀ i, ¬ leading_int32 value i)
  ∧ (∀ i, leading_int32 value i →
       ∃ parser', SetValueByIndex parser index value = (parser', Ok tt)
                  ∧ GetValueByIndex parser' index = Ok (VInt32 i)).
Proof.
  intros Hi Hl Ht.
  pose proof (SetValueByIndex_int parser index entry value Hi Hl Ht) as HS.
  split; [split|].
  - intros [f Hf] i Hlead. apply Sscanf_d_leading in Hlead. rewrite Hlead in HS.
    destruct HS as (parser' & HS & _). congruence.
  - intros Hno. destruct (Sscanf_d value) as [f|i] eqn:Hs; [eauto|].
    apply Sscanf_d_inr in Hs. destruct (Hno i Hs).
  - intros i Hlead. apply Sscanf_d_leading in Hlead. rewrite Hlead in HS. exact HS.
Qed.

Lemma SetValueByIndex_int_scan_failure_witness :
  (∃ f, SetValueByIndex example_parser 1 (list_byte_of_string "abc12")
        = (example_parser, Err (ErrScan f)))
  ∧ (∃ f, SetValueByIndex example_parser 1 (list_byte_of_string "99999999999")
          = (example_parser, Err (ErrScan f)))
  ∧ (∃ parser', SetValueByIndex example_parser 1 (list_byte_of_string " -42x")
                = (parser', Ok tt)
                ∧ GetValueByIndex parser' 1 = Ok (VInt32 (-42))).
Proof.
  split; [|split].
  - apply (SetValueByIndex_int_scan_failure example_parser 1 _
             (list_byte_of_string "abc12") ltac:(lia) eq_refl eq_refl).
    intros i H. apply Sscanf_d_leading in H. vm_compute in H. discriminate H.
  - apply (SetValueByIndex_int_scan_failure example_parser 1 _
             (list_byte_of_string "99999999999") ltac:(lia) eq_refl eq_refl).
    intros i H. apply Sscanf_d_leading in H. vm_compute in H. discriminate H.
  - apply (SetValueByIndex_int_scan_failure example_parser 1 _
             (list_byte_of_string " -42x") ltac:(lia) eq_refl eq_refl).
    exists [[x20]], [x2d], (list_byte_of_string "42"), (list_byte_of_string "x").
    split; [reflexivity|]. split; [repeat constructor; discriminate|].
    split; [right; split; reflexivity|]. split; [discriminate|].
    split; [repeat constructor|]. split; [vm_compute; discriminate|].
    split; [right; intros d [= <-]; reflexivity | vm_compute; split; [discriminate | reflexivity]].
Defined.

(** X7: on an entry of type 4 a string made of an optional minus sign, a
    non-empty run of fewer than 2^30 decimal digits whose value fits 32
    bits, and any rest that does not go on with a digit stores that value;
    the rest is ignored. *)
Theorem SetValueByIndex_int_numeral parser index entry (neg : bool) ds rest :
  0 ≤ index →
  Pairs parser !! Z.to_nat index = Some entry →
  Type_ entry = IntType →
  ds ≠ [] →
  Forall (λ d, is_digit d = true) ds →
  Z.of_nat (length ds) < 2 ^ 30 →
  (∀ d, head rest = Some d → is_digit d = false) →
  - 2 ^ 31 ≤ (if neg then - decimal ds else decimal ds) ≤ 2 ^ 31 - 1 →
  ∃ parser',
    SetValueByIndex parser index ((if neg then [x2d] else []) ++ ds ++ rest) = (parser', Ok tt)
    ∧ GetValueByIndex parser' index = Ok (VInt32 (if neg then - decimal ds else decimal ds)).
Proof.
  intros Hi Hl Ht Hne Hds Hlen Hr Hn.
  pose proof (SetValueByIndex_int parser index entry
                ((if neg then [x2d] else []) ++ ds ++ rest) Hi Hl Ht) as HS.
  rewrite (Sscanf_d_leading _ (if neg then - decimal ds else decimal ds)) in HS;
    [exact HS|].
  exists [], (if neg then [x2d] else []), ds, rest.
  change (2 ^ 30) with 1073741824 in Hlen. unfold hugeWid.
  split; [reflexivity|]. split; [constructor|].
  split; [destruct neg; [right | left]; auto|].
  split; [exact Hne|]. split; [exact Hds|].
  split; [destruct neg; cbn [length]; lia|].
  split; [right; exact Hr | lia].
Qed.

Lemma SetValueByIndex_int_numeral_witness :
  ∃ parser',
    SetValueByIndex example_parser 1 (list_byte_of_string "-42 units") = (parser', Ok tt)
    ∧ GetValueByIndex parser' 1 = Ok (VInt32 (-42)).
Proof.
  eapply (SetValueByIndex_int_numeral example_parser 1) with
    (neg := true) (ds := list_byte_of_string "42") (rest := list_byte_of_string " units");
    [lia | reflexivity | reflexivity | discriminate
     | repeat constructor | vm_compute; reflexivity
     | intros d [= <-]; reflexivity | vm_compute; split; discriminate].
Defined.

(** X8: [SetLabelByIndex] in range replaces the label at that position,
    whatever the other labels are, and returns [nil]; every other key,
    every value and every type tag reads as before. *)
Theorem SetLabelByIndex_GetKeyByIndex parser index entry value :
  0 ≤ index →
  Pairs parser !! Z.to_nat index = Some entry →
  ∃ parser',
    SetLabelByIndex parser index value = (parser', Ok tt)
    ∧ GetKeyByIndex parser' index = Ok value
    ∧ (∀ j, j ≠ index → GetKeyByIndex parser' j = GetKeyByIndex parser j)
    ∧ (∀ j, GetValueByIndex parser' j = GetValueByIndex parser j)
    ∧ (∀ j, GetTypeByIndex parser' j = GetTypeByIndex parser j).
Proof.
  intros Hi Hl. unfold SetLabelByIndex. in_range Hi Hl.
  eexists. split; [reflexivity|].
  split; [apply (proj1 (proj2 (getters_after_alter _ _ _ (set_Label value) Hi Hl)))|].
  assert (Hget : ∀ j,
    Pairs_index (mkSFOParser (parser_PsfHdr parser) (parser_PsfSec parser)
                   (alter (set_Label value) (Z.to_nat index) (Pairs parser))
                   (FilePath parser)) j
    = match Pairs_index parser j with
      | Ok e => Ok (if bool_decide (j = index) then set_Label value e else e)
      | Err e => Err e
      | Panic p => Panic p
      end).
  { intros j. unfold Pairs_index. cbn [Pairs]. destruct (Z.ltb_spec j 0); [reflexivity|].
    rewrite list_lookup_alter. case_decide as E.
    - assert (j = index) as -> by lia. rewrite Hl. cbn.
      rewrite bool_decide_eq_true_2 by reflexivity. reflexivity.
    - destruct (Pairs parser !! Z.to_nat j); [|reflexivity].
      rewrite bool_decide_eq_false_2 by congruence. reflexivity. }
  assert (Hoor : ∀ j,
    out_of_range (mkSFOParser (parser_PsfHdr parser) (parser_PsfSec parser)
                   (alter (set_Label value) (Z.to_nat index) (Pairs parser))
                   (FilePath parser)) j = out_of_range parser j).
  { intros j. unfold out_of_range. cbn [Pairs]. rewrite length_alter. reflexivity. }
  unfold GetKeyByIndex, GetValueByIndex, GetTypeByIndex.
  repeat split; intros j; try intros Hj; rewrite Hoor, Hget;
    destruct (out_of_range parser j); try reflexivity;
    destruct (Pairs_index parser j); try reflexivity;
    case_bool_decide; try reflexivity; contradiction.
Qed.

Lemma SetLabelByIndex_GetKeyByIndex_witness :
  ∃ parser',
    SetLabelByIndex example_parser 0 (list_byte_of_string "VERSION") = (parser', Ok tt)
    ∧ GetKeyByIndex parser' 0 = Ok (list_byte_of_string "VERSION")
    ∧ GetKeyByIndex parser' 1 = Ok (list_byte_of_string "VERSION").
Proof.
  destruct (SetLabelByIndex_GetKeyByIndex example_parser 0 _ (list_byte_of_string "VERSION")
              ltac:(lia) eq_refl) as (parser' & H1 & H2 & H3 & _).
  exists parser'. split; [exact H1|]. split; [exact H2|].
  rewrite H3 by discriminate. reflexivity.
Defined.

(** ** The invariant of a loaded model *)

Lemma well_typed_set_Value v entry :
  match v with
  | VBytes _ => Type_ entry = ByteType
  | VString _ => Type_ entry = StringType
  | VInt32 _ => Type_ entry = IntType
  | VNil => unknown_tag (Type_ entry)
  end →
  well_typed (set_Value v entry).
Proof. intros H. unfold well_typed. cbn. exact H. Qed.

Lemma SetValueByIndex_consistent parser index value :
  consistent parser → consistent (fst (SetValueByIndex parser index value)).
Proof.
  intros (Hn & Hlen & Hwt).
  destruct (SetValueByIndex_cases parser index value)
    as [(r & _ & ->) | (entry & v & Hi & Hl & -> & Hv)]; cbn [fst].
  - repeat split; assumption.
  - unfold consistent. cbn [parser_PsfHdr parser_PsfSec Pairs].
    rewrite length_alter. repeat split; try assumption.
    apply Forall_alter; [exact Hwt|].
    intros e He _. rewrite Hl in He. injection He as <-.
    apply well_typed_set_Value.
    destruct Hv as [[Ht ->] | [(Ht & b & _ & ->) | (Ht & n & _ & ->)]]; exact Ht.
Qed.

Lemma SetLabelByIndex_consistent parser index value :
  consistent parser → consistent (fst (SetLabelByIndex parser index value)).
Proof.
  intros (Hn & Hlen & Hwt).
  unfold SetLabelByIndex. destruct (out_of_range parser index) eqn:H; cbn [fst].
  - repeat split; assumption.
  - destruct (guard_passed _ _ H) as (Hi & entry & Hl). in_range Hi Hl. cbn [fst].
    unfold consistent. cbn [parser_PsfHdr parser_PsfSec Pairs].
    rewrite length_alter. repeat split; try assumption.
    apply Forall_alter; [exact Hwt|]. intros e _ He. exact He.
Qed.

(** X9: the two mutators keep a model consistent: the entry count and the
    descriptor count stay equal to [NSects], and the dynamic type of every
    value stays the one its tag announces. *)
Theorem mutators_keep_consistent parser index value :
  consistent parser →
  consistent (fst (SetValueByIndex parser index value))
  ∧ consistent (fst (SetLabelByIndex parser index value)).
Proof.
  intros H. split;
    [apply SetValueByIndex_consistent | apply SetLabelByIndex_consistent]; exact H.
Qed.

Lemma mutators_keep_consistent_witness :
  consistent (fst (SetValueByIndex sample_parser 0 (list_byte_of_string "7"))).
Proof.
  apply (mutators_keep_consistent sample_parser 0 (list_byte_of_string "7")).
  repeat split. repeat constructor.
Defined.

(** ** Reading a label *)

Lemma readByteString_loop_terminated label rest acc :
  Forall (λ b, b ≠ x00) label →
  readByteString_loop (label ++ x00 :: rest) acc = Some (acc ++ label, S (length label)).
Proof.
  intros H. revert acc. induction H as [|b label Hb _ IH]; intros acc.
  - cbn. rewrite app_nil_r. reflexivity.
  - cbn [app readByteString_loop length].
    rewrite bool_decide_eq_false_2 by exact Hb.
    rewrite IH, <- app_assoc. reflexivity.
Qed.

Lemma readByteString_loop_unterminated s acc :
  Forall (λ b, b ≠ x00) s → readByteString_loop s acc = None.
Proof.
  intros H. revert acc. induction H as [|b s Hb _ IH]; intros acc; [reflexivity|].
  cbn [readByteString_loop]. rewrite bool_decide_eq_false_2 by exact Hb.
  rewrite IH. reflexivity.
Qed.

(** X10: [readByteString] returns the bytes in front of the first zero
    byte and leaves the file behind that zero byte; when no zero byte is
    left in the file it fails with [io.EOF]. *)
Theorem readByteString_spec f :
  (∀ label rest,
     unread f = label ++ x00 :: rest → Forall (λ b, b ≠ x00) label →
     readByteString f
     = (mkFile (content f) (offset f + Z.of_nat (S (length label))), Ok label))
  ∧ (Forall (λ b, b ≠ x00) (unread f) → snd (readByteString f) = Err ErrEOF).
Proof.
  split.
  - intros label rest Hu Hl. unfold readByteString.
    rewrite Hu, readByteString_loop_terminated by exact Hl. reflexivity.
  - intros Hu. unfold readByteString.
    rewrite readByteString_loop_unterminated by exact Hu. reflexivity.
Qed.

Lemma readByteString_spec_witness :
  readByteString (mkFile sample_file 36) = (mkFile sample_file 38, Ok (list_byte_of_string "A"))
  ∧ snd (readByteString (mkFile (list_byte_of_string "TITLE") 0)) = Err ErrEOF.
Proof.
  destruct (readByteString_spec (mkFile sample_file 36)) as [H1 _].
  destruct (readByteString_spec (mkFile (list_byte_of_string "TITLE") 0)) as [_ H2].
  split.
  - apply (H1 (list_byte_of_string "A") [x00; x00; x01; x00; x00; x00]);
      [reflexivity | repeat constructor; discriminate].
  - apply H2. repeat constructor; discriminate.
Defined.

(** ** Decoding: the header and the descriptor table *)

Lemma bind_Ok {St A B} (m : M St A) (k : A → M St B) s s' b :
  bind m k s = (s', Ok b) → ∃ a s1, m s = (s1, Ok a) ∧ k a s1 = (s', Ok b).
Proof.
  unfold bind. destruct (m s) as [s1 [a|e|p]]; intros H; [eauto | discriminate..].
Qed.






Lemma unread_advance f (n : nat) :
  0 ≤ offset f →
  unread (mkFile (content f) (offset f + Z.of_nat n)) = drop n (unread f).
Proof.
  intros Ho. unfold unread. cbn [content offset].
  rewrite drop_drop. f_equal. lia.
Qed.




(** ** What a decoded model looks like *)

Lemma read_PsfSecs_length n : ∀ f f' secs,
  read_PsfSecs n f = (f', Ok secs) → length secs = n.
Proof.
  induction n as [|n IH]; intros f f' secs H; cbn [read_PsfSecs] in H.
  - injection H as _ <-. reflexivity.
  - apply bind_Ok in H as (bs & f1 & _ & H).
    apply bind_Ok in H as (secs' & f2 & H2 & H).
    injection H as _ <-. cbn. f_equal. eapply IH. exact H2.
Qed.

Lemma decode_value_typed ty tmpbuffer f f' v :
  decode_value ty tmpbuffer f = (f', Ok v) →
  match v with
  | VBytes _ => ty = ByteType
  | VString _ => ty = StringType
  | VInt32 _ => ty = IntType
  | VNil => unknown_tag ty
  end.
Proof.
  unfold decode_value, unknown_tag.
  case_bool_decide as H0; [intros [= _ <-]; exact H0|].
  case_bool_decide as H2; [intros [= _ <-]; exact H2|].
  case_bool_decide as H4.
  - destruct (Uint32 tmpbuffer); [intros [= _ <-]; exact H4 | discriminate].
  - intros [= _ <-]. auto.
Qed.

Lemma read_pair_Ok alloc hdr sec f f' entry :
  read_pair alloc hdr sec f = (f', Ok entry) →
  pair_PsfSec entry = sec ∧ Type_ entry = DataType sec ∧ well_typed entry.
Proof.
  unfold read_pair. intros H.
  apply bind_Ok in H as (? & f1 & _ & H).
  apply bind_Ok in H as (label & f2 & _ & H).
  apply bind_Ok in H as (? & f3 & _ & H).
  destruct (DatafieldUsed sec <? 0); [discriminate|].
  destruct (out_of_memory _ _); [discriminate|].
  apply bind_Ok in H as (tmpbuffer & f4 & _ & H).
  apply bind_Ok in H as (v & f5 & Hv & H).
  injection H as _ <-. cbn. repeat split.
  apply decode_value_typed in Hv. unfold well_typed. cbn. exact Hv.
Qed.

Lemma read_pairs_Ok alloc hdr secs : ∀ f f' pairs,
  read_pairs alloc hdr secs f = (f', Ok pairs) →
  pair_PsfSec <$> pairs = secs
  ∧ Type_ <$> pairs = DataType <$> secs
  ∧ Forall well_typed pairs.
Proof.
  induction secs as [|sec secs IH]; intros f f' pairs H; cbn [read_pairs] in H.
  - injection H as _ <-. repeat split. constructor.
  - apply bind_Ok in H as (entry & f1 & He & H).
    apply bind_Ok in H as (pairs' & f2 & Hp & H).
    injection H as _ <-.
    apply read_pair_Ok in He as (H1 & H2 & H3).
    apply IH in Hp as (IH1 & IH2 & IH3).
    cbn. rewrite H1, H2, IH1, IH2. repeat split. constructor; assumption.
Qed.

Lemma parse_Ok alloc filePath file file' parser :
  parse alloc filePath file = (file', Ok parser) →
  consistent parser
  ∧ FilePath parser = filePath
  ∧ bytes_of_byte4 (Psf (parser_PsfHdr parser)) = magic
  ∧ pair_PsfSec <$> Pairs parser = parser_PsfSec parser
  ∧ Type_ <$> Pairs parser = DataType <$> parser_PsfSec parser.
Proof.
  intros Hp. unfold parse in Hp.
  apply bind_Ok in Hp as (bs & f1 & _ & Hp).
  unfold bytes_eqb in Hp. case_bool_decide as Hm; [|discriminate]. cbn [negb] in Hp.
  destruct (Z.ltb_spec (NSects (decode_PsfHdr bs)) 0) as [|Hn]; [discriminate|].
  destruct (out_of_memory _ _); [discriminate|].
  apply bind_Ok in Hp as (secs & f2 & Hs & Hp).
  destruct (out_of_memory _ _); [discriminate|].
  apply bind_Ok in Hp as (pairs & f3 & Hps & Hp).
  injection Hp as _ <-.
  apply read_PsfSecs_length in Hs. apply read_pairs_Ok in Hps as (H1 & H2 & H3).
  assert (Hlen : length pairs = length secs)
    by (rewrite <- H1, length_fmap; reflexivity).
  unfold consistent. cbn [parser_PsfHdr parser_PsfSec Pairs FilePath].
  rewrite Hlen, Hs. repeat split; try assumption; lia.
Qed.

Lemma NewSFOParser_Ok fs filePath parser :
  NewSFOParser fs filePath = Ok parser →
  ∃ data file',
    (fs !! filePath = Some (Regular data) ∨ fs !! filePath = Some (ReadOnly data))
    ∧ parse unlimited filePath (mkFile data 0) = (file', Ok parser).
Proof.
  unfold NewSFOParser, NewSFOParser_mem.
  destruct (fs !! filePath) as [[|data|data]|]; try discriminate;
    destruct (parse unlimited filePath (mkFile data 0)) as [f' r] eqn:Hp; cbn [snd];
    intros ->; eauto.
Qed.

Lemma NewSFOParser_Regular fs filePath data parser :
  fs !! filePath = Some (Regular data) →
  NewSFOParser fs filePath = Ok parser →
  ∃ file', parse unlimited filePath (mkFile data 0) = (file', Ok parser).
Proof.
  intros Hfs H. unfold NewSFOParser, NewSFOParser_mem in H. rewrite Hfs in H.
  destruct (parse unlimited filePath (mkFile data 0)) as [f' r] eqn:Hp. cbn [snd] in H.
  subst r. eauto.
Qed.

(** X14: a model that [NewSFOParser] returns is consistent: [GetLength]
    (the header's [NSects]), the number of descriptors and the number of
    entries agree, the header starts with the magic number, every entry
    carries its descriptor and that descriptor's type tag, and the dynamic
    type of every value is the one the tag announces. *)
Theorem NewSFOParser_consistent fs filePath parser :
  NewSFOParser fs filePath = Ok parser →
  consistent parser
  ∧ GetLength parser = Z.of_nat (length (Pairs parser))
  ∧ FilePath parser = filePath
  ∧ bytes_of_byte4 (Psf (parser_PsfHdr parser)) = magic
  ∧ pair_PsfSec <$> Pairs parser = parser_PsfSec parser
  ∧ Type_ <$> Pairs parser = DataType <$> parser_PsfSec parser.
Proof.
  intros H. apply NewSFOParser_Ok in H as (data & file' & _ & Hp).
  apply parse_Ok in Hp as (Hc & H2 & H3 & H4 & H5).
  repeat split; try assumption.
  - apply Hc.
  - apply Hc.
  - apply Hc.
  - destruct Hc as (Hn & Hlen & _). unfold GetLength. rewrite Hn, Hlen. reflexivity.
Qed.

Lemma NewSFOParser_consistent_witness :
  consistent sample_parser ∧ GetLength sample_parser = 1.
Proof.
  destruct (NewSFOParser_consistent (on_disk sample_file) sample_path sample_parser)
    as (H1 & H2 & _); [run|].
  split; [exact H1 | exact H2].
Defined.

(** ** What the decoder reads *)
















(** ** Memory and the decoder *)








(** ** What [SaveSFO] does to the file *)

Lemma length_concat_encode_PsfSec secs :
  length (concat (map encode_PsfSec secs)) = (16 * length secs)%nat.
Proof.
  induction secs as [|sec secs IH]; [reflexivity|].
  cbn [map concat length]. rewrite length_app, length_encode_PsfSec, IH. lia.
Qed.

Lemma Write_content bs f :
  (0 < length bs)%nat →
  content (Write bs f)
  = take (Z.to_nat (offset f)) (content f)
    ++ replicate (Z.to_nat (offset f) - length (content f)) x00
    ++ bs ++ drop (Z.to_nat (offset f) + length bs) (content f).
Proof. destruct bs; [cbn; lia | reflexivity]. Qed.

(** One descriptor written behind the descriptors [E] that already stand
    at offset 20. *)
Lemma Write_descriptor (data E bs : list byte) f :
  length bs = 16%nat →
  Z.to_nat (offset f) = (20 + length E)%nat →
  drop 20 (content f) = E ++ drop (20 + length E) data →
  E = [] ∨ (20 + length E ≤ length (content f))%nat →
  drop 20 (content (Write bs f)) = (E ++ bs) ++ drop (20 + length (E ++ bs)) data
  ∧ (20 + length (E ++ bs) ≤ length (content (Write bs f)))%nat.
Proof.
  intros Hbs Hpos Hc Hlen.
  rewrite Write_content by (destruct bs; [discriminate | lia]).
  rewrite Hpos, Hbs.
  set (c := content f) in *.
  set (A := take (20 + length E) c ++ replicate (20 + length E - length c) x00).
  assert (HA : length A = (20 + length E)%nat).
  { subst A. rewrite length_app, length_take, length_replicate. lia. }
  assert (HdA : drop 20 A = E).
  { subst A. destruct Hlen as [-> | Hlen].
    - apply drop_ge. rewrite HA. cbn [length]. lia.
    - replace (20 + length E - length c)%nat with 0%nat by lia.
      cbn [replicate]. rewrite app_nil_r.
      rewrite <- take_drop_commute, Hc. apply take_app_length. }
  assert (HD : drop (20 + length E + 16) c = drop (20 + length (E ++ bs)) data).
  { replace (20 + length E + 16)%nat with (20 + (length E + 16))%nat by lia.
    rewrite <- (drop_drop c (length E + 16) 20), Hc.
    rewrite drop_app_add, drop_drop, length_app, Hbs. reflexivity. }
  rewrite HD, (app_assoc (take _ c)). fold A. split.
  - rewrite drop_app_le by lia. rewrite HdA, app_assoc. reflexivity.
  - rewrite !length_app, HA, Hbs. lia.
Qed.

Lemma write_PsfSecs_content data secs : ∀ f E,
  Z.to_nat (offset f) = (20 + length E)%nat →
  0 ≤ offset f →
  drop 20 (content f) = E ++ drop (20 + length E) data →
  E = [] ∨ (20 + length E ≤ length (content f))%nat →
  drop 20 (content (write_PsfSecs secs f))
  = (E ++ concat (map encode_PsfSec secs))
    ++ drop (20 + length E + 16 * length secs) data.
Proof.
  induction secs as [|sec secs IH]; intros f E Hpos Ho Hc Hlen.
  - cbn. rewrite app_nil_r, Hc. f_equal. f_equal. lia.
  - cbn [write_PsfSecs foldl]. fold (write_PsfSecs secs (Write (encode_PsfSec sec) f)).
    destruct (Write_descriptor data E (encode_PsfSec sec) f
                (length_encode_PsfSec sec) Hpos Hc Hlen) as [Hc' Hlen'].
    rewrite (IH _ (E ++ encode_PsfSec sec)).
    + cbn [map concat]. rewrite <- !app_assoc. do 4 f_equal.
      rewrite length_app, length_encode_PsfSec. cbn [length]. lia.
    + rewrite Write_offset, length_app, length_encode_PsfSec. lia.
    + rewrite Write_offset. lia.
    + exact Hc'.
    + right. exact Hlen'.
Qed.

(** [SaveSFO] behind a layout that ended well. *)
Lemma SaveSFO_after_layout parser fs data st :
  fs !! FilePath parser = Some (Regular data) →
  SaveSFO_layout (mkSaveState parser []) = (st, Ok tt) →
  let parser' :=
    set_PsfHdr (set_LabelPtr (fresh_LabelPtr (sv_parser st)) (parser_PsfHdr (sv_parser st)))
               (sv_parser st) in
  SaveSFO parser fs
  = (parser',
     <[FilePath parser :=
         Regular (encode_PsfHdr (parser_PsfHdr parser')
                  ++ concat (map encode_PsfSec (parser_PsfSec parser'))
                  ++ drop (20 + 16 * length (parser_PsfSec parser')) data)]> fs,
     Ok tt).
Proof.
  intros Hfs Hl. cbv zeta. unfold SaveSFO. cbv zeta. rewrite Hfs, Hl.
  f_equal. f_equal. f_equal. f_equal.
  cbn [parser_PsfHdr parser_PsfSec set_PsfHdr].
  set (secs := parser_PsfSec (sv_parser st)).
  set (hdr := set_LabelPtr _ _).
  change (Seek sizeof_PsfHdr (mkFile data 0)) with (mkFile data 20).
  set (f1 := write_PsfSecs secs (mkFile data 20)).
  assert (H1 : drop 20 (content f1)
               = concat (map encode_PsfSec secs) ++ drop (20 + 16 * length secs) data).
  { subst f1. rewrite (write_PsfSecs_content data secs (mkFile data 20) []);
      [reflexivity | reflexivity | cbn; lia | reflexivity | left; reflexivity]. }
  change (Seek 0 f1) with (mkFile (content f1) 0).
  pose proof (length_encode_PsfHdr hdr) as Hh.
  rewrite Write_content by lia.
  cbn [content offset]. change (Z.to_nat 0) with 0%nat.
  rewrite take_0, Hh. cbn [Nat.sub replicate app Nat.add].
  rewrite H1. reflexivity.
Qed.

(** X15: what [SaveSFO] leaves on disk.  When it returns [nil] the file is
    the new header, then the new descriptors, then whatever the file held
    from offset [20 + 16 * len(parser.PsfSec)] on; no other path is
    touched.  When it does not return [nil] the file system is as it was;
    in particular a missing file is not created. *)
Theorem SaveSFO_file_effect parser fs :
  let '(parser', fs', r) := SaveSFO parser fs in
  (r ≠ Ok tt → fs' = fs)
  ∧ (fs !! FilePath parser = None → r = Err ErrNotExist ∧ parser' = parser)
  ∧ (r = Ok tt →
     ∃ data, fs !! FilePath parser = Some (Regular data)
       ∧ fs' = <[FilePath parser :=
                   Regular (encode_PsfHdr (parser_PsfHdr parser')
                            ++ concat (map encode_PsfSec (parser_PsfSec parser'))
                            ++ drop (20 + 16 * length (parser_PsfSec parser')) data)]> fs).
Proof.
  destruct (fs !! FilePath parser) as [[|data|data]|] eqn:Hfs.
  - unfold SaveSFO. cbv zeta. rewrite Hfs. repeat split; discriminate.
  - destruct (SaveSFO_layout (mkSaveState parser [])) as [st [[]|e|p]] eqn:Hl.
    + rewrite (SaveSFO_after_layout parser fs data st Hfs Hl).
      split; [intros H; contradiction|]. split; [discriminate|]. intros _.
      exists data. split; reflexivity.
    + unfold SaveSFO. cbv zeta. rewrite Hfs, Hl. repeat split; discriminate.
    + unfold SaveSFO. cbv zeta. rewrite Hfs, Hl. repeat split; discriminate.
  - unfold SaveSFO. cbv zeta. rewrite Hfs. repeat split; discriminate.
  - unfold SaveSFO. cbv zeta. rewrite Hfs. repeat split; discriminate.
Qed.

Lemma SaveSFO_file_effect_witness : (SaveSFO sample_parser ∅).1.2 = ∅.
Proof.
  pose proof (SaveSFO_file_effect sample_parser ∅) as H.
  destruct (SaveSFO sample_parser ∅) as [[parser' fs'] r].
  destruct H as (H1 & H2 & _). cbn [fst snd]. apply H1.
  destruct H2 as [-> _]; [reflexivity | discriminate].
Defined.

(** ** The layout that [SaveSFO] computes *)

Lemma wrap_mod bits x : 0 < bits → wrap bits x mod 2 ^ bits = x mod 2 ^ bits.
Proof.
  intros Hb. unfold wrap.
  assert (0 < 2 ^ bits) by (apply Z.pow_pos_nonneg; lia).
  rewrite Zminus_mod, Z.mod_mod by lia. rewrite <- Zminus_mod.
  f_equal. lia.
Qed.

Lemma wrap_congruent bits x y :
  0 < bits → x mod 2 ^ bits = y mod 2 ^ bits → wrap bits x = wrap bits y.
Proof.
  intros Hb H. unfold wrap. f_equal.
  rewrite (Zplus_mod x), (Zplus_mod y), H. reflexivity.
Qed.

(** The used size does not depend on where the value starts. *)
Lemma int32_difference s w : int32 (int32 (s + w) - int32 s) = int32 w.
Proof.
  unfold int32. apply wrap_congruent; [lia|].
  rewrite Zminus_mod, !wrap_mod by lia. rewrite <- Zminus_mod.
  f_equal. lia.
Qed.

Lemma alignment_4 n : alignment n 4 = Ok (aligned n).
Proof.
  unfold aligned, alignment. cbn [Z.eqb].
  destruct (negb (Z.rem n 4 =? 0)); reflexivity.
Qed.

Lemma for_range_inv {St} (I : nat → St → Prop) (body : nat → M St unit) count :
  ∀ start st,
    I start st →
    (∀ i s, (start ≤ i < start + count)%nat → I i s →
            ∃ s', body i s = (s', Ok tt) ∧ I (S i) s') →
    ∃ st', for_range count start body st = (st', Ok tt) ∧ I (start + count)%nat st'.
Proof.
  induction count as [|count IH]; intros start st HI Hbody.
  - exists st. rewrite Nat.add_0_r. split; [reflexivity | exact HI].
  - destruct (Hbody start st ltac:(lia) HI) as (s1 & Hb & HI1).
    destruct (IH (S start) s1 HI1) as (st' & Hf & HI').
    { intros i s Hi. apply Hbody. lia. }
    exists st'. split.
    + cbn [for_range]. unfold bind. rewrite Hb. exact Hf.
    + replace (start + S count)%nat with (S start + count)%nat by lia. exact HI'.
Qed.

Section Primitives.
Variable hdr : PsfHdr.
Variable secs : list PsfSec.
Variable pairs : list SFOPair.
Variable path : string.
Variable buf : list byte.

Let st : SaveState := mkSaveState (mkSFOParser hdr secs pairs path) buf.

Lemma Len_eq : Len st = (st, Ok (zlen buf)).
Proof. reflexivity. Qed.

Lemma buf_Write_eq bs :
  buf_Write bs st = (mkSaveState (mkSFOParser hdr secs pairs path) (buf ++ bs), Ok tt).
Proof. reflexivity. Qed.

Lemma pad_to_eq limit :
  pad_to limit st
  = (mkSaveState (mkSFOParser hdr secs pairs path)
       (buf ++ replicate (Z.to_nat (limit - zlen buf)) x00), Ok tt).
Proof. reflexivity. Qed.

Lemma PsfSec_at_eq i sec : secs !! i = Some sec → PsfSec_at i st = (st, Ok sec).
Proof. intros H. unfold PsfSec_at, st. cbn. rewrite H. reflexivity. Qed.

Lemma Pairs_at_eq i e : pairs !! i = Some e → Pairs_at i st = (st, Ok e).
Proof. intros H. unfold Pairs_at, st. cbn. rewrite H. reflexivity. Qed.

Lemma update_PsfSec_eq i f sec :
  secs !! i = Some sec →
  update_PsfSec i f st
  = (mkSaveState (mkSFOParser hdr (alter f i secs) pairs path) buf, Ok tt).
Proof.
  intros H. unfold update_PsfSec, bind. rewrite (PsfSec_at_eq i sec H). reflexivity.
Qed.

Lemma write_value_eq e :
  well_typed e →
  write_value e st = (mkSaveState (mkSFOParser hdr secs pairs path) (buf ++ wire e), Ok tt).
Proof.
  unfold well_typed, write_value, wire, unknown_tag.
  destruct (Value e); intros H.
  - destruct H as (H0 & H2 & H4). rewrite !bool_decide_eq_false_2 by assumption.
    unfold ret, st. rewrite app_nil_r. reflexivity.
  - rewrite H. reflexivity.
  - rewrite H. reflexivity.
  - rewrite H. reflexivity.
Qed.
End Primitives.


(** Runs the first action of a sequence with the equation [lem]. *)
Tactic Notation "step" uconstr(lem) :=
  unfold bind at 1; rewrite lem; cbv beta iota.

Lemma label_block_snoc pairs k e :
  pairs !! k = Some e →
  label_block (take (S k) pairs) = label_block (take k pairs) ++ Label e ++ [x00].
Proof.
  intros H. unfold label_block. rewrite (take_S_r _ _ _ H), map_app, concat_app.
  cbn. rewrite app_nil_r. reflexivity.
Qed.

Lemma data_start_S pairs k e :
  pairs !! k = Some e → data_start pairs (S k) = data_end (data_start pairs k) e.
Proof.
  intros H. unfold data_start. rewrite (take_S_r _ _ _ H), foldl_snoc. reflexivity.
Qed.

Lemma zlen_app a b : zlen (a ++ b) = zlen a + zlen b.
Proof. unfold zlen. rewrite length_app. lia. Qed.

Lemma zlen_replicate n : zlen (replicate (Z.to_nat n) x00) = Z.max 0 n.
Proof. unfold zlen. rewrite length_replicate. lia. Qed.

(** One turn of the label loop. *)
Lemma write_label_step hdr secs pairs path k sec e :
  secs !! k = Some sec →
  pairs !! k = Some e →
  write_label k (mkSaveState (mkSFOParser hdr secs pairs path) (label_block (take k pairs)))
  = (mkSaveState
       (mkSFOParser hdr (alter (set_LabelOff (int16 (label_start pairs k))) k secs) pairs path)
       (label_block (take (S k) pairs)), Ok tt).
Proof.
  intros Hs Hp. unfold write_label.
  step Len_eq. step (update_PsfSec_eq hdr secs pairs path _ k _ sec Hs).
  step (Pairs_at_eq hdr (alter (set_LabelOff (int16 (zlen (label_block (take k pairs))))) k secs)
          pairs path _ k e Hp).
  step buf_Write_eq. rewrite buf_Write_eq.
  rewrite (label_block_snoc _ _ _ Hp), <- app_assoc. reflexivity.
Qed.

(** One turn of the data loop. *)
Lemma write_data_step hdr secs pairs path buf k sec e :
  secs !! k = Some sec →
  pairs !! k = Some e →
  well_typed e →
  ∃ buf',
    write_data k (mkSaveState (mkSFOParser hdr secs pairs path) buf)
    = (mkSaveState
         (mkSFOParser hdr
            (alter (λ s, set_DatafieldSize (reserved_size e)
                           (set_DatafieldUsed (used_size e)
                              (set_DataOff (int32 (zlen buf)) s))) k secs)
            pairs path)
         buf', Ok tt)
    ∧ zlen buf' = data_end (zlen buf) e.
Proof.
  intros Hs Hp Hw. unfold write_data.
  set (g1 := set_DataOff (int32 (zlen buf))).
  set (g2 := set_DatafieldUsed (used_size e)).
  set (g3 := set_DatafieldSize (reserved_size e)).
  step Len_eq. step (update_PsfSec_eq hdr secs pairs path _ k _ sec Hs). fold g1.
  step (Pairs_at_eq hdr (alter g1 k secs) pairs path buf k e Hp).
  step (write_value_eq hdr (alter g1 k secs) pairs path buf e Hw).
  step Len_eq.
  assert (H1 : alter g1 k secs !! k = Some (g1 sec))
    by (rewrite list_lookup_alter_eq, Hs; reflexivity).
  step (PsfSec_at_eq hdr (alter g1 k secs) pairs path (buf ++ wire e) k _ H1).
  assert (Hu : int32 (int32 (zlen (buf ++ wire e)) - DataOff (g1 sec)) = used_size e).
  { subst g1. cbn [DataOff set_DataOff]. rewrite zlen_app. apply int32_difference. }
  rewrite Hu.
  step (update_PsfSec_eq hdr (alter g1 k secs) pairs path (buf ++ wire e) k _ _ H1). fold g2.
  assert (H2 : alter g2 k (alter g1 k secs) !! k = Some (g2 (g1 sec)))
    by (rewrite list_lookup_alter_eq, H1; reflexivity).
  step (PsfSec_at_eq hdr _ pairs path (buf ++ wire e) k _ H2).
  unfold bind at 1. unfold lift at 1. rewrite alignment_4. cbv beta iota.
  change (DatafieldUsed (g2 (g1 sec))) with (used_size e). fold (reserved_size e).
  step (update_PsfSec_eq hdr _ pairs path (buf ++ wire e) k _ _ H2). fold g3.
  assert (H3 : alter g3 k (alter g2 k (alter g1 k secs)) !! k = Some (g3 (g2 (g1 sec))))
    by (rewrite list_lookup_alter_eq, H2; reflexivity).
  step (PsfSec_at_eq hdr _ pairs path (buf ++ wire e) k _ H3).
  rewrite pad_to_eq. eexists. split.
  - rewrite !list_alter_alter_eq. reflexivity.
  - rewrite !zlen_app, zlen_replicate. unfold data_end.
    subst g1 g2 g3. cbn [DataOff DatafieldSize set_DataOff set_DatafieldUsed set_DatafieldSize].
    reflexivity.
Qed.


Lemma refresh_LabelPtr_eq hdr secs pairs path buf :
  refresh_LabelPtr (mkSaveState (mkSFOParser hdr secs pairs path) buf)
  = (mkSaveState
       (mkSFOParser (set_LabelPtr (fresh_LabelPtr (mkSFOParser hdr secs pairs path)) hdr)
                    secs pairs path) buf, Ok tt).
Proof. reflexivity. Qed.

Lemma the_PsfHdr_eq hdr secs pairs path buf :
  the_PsfHdr (mkSaveState (mkSFOParser hdr secs pairs path) buf)
  = (mkSaveState (mkSFOParser hdr secs pairs path) buf, Ok hdr).
Proof. reflexivity. Qed.

Lemma update_PsfHdr_eq f hdr secs pairs path buf :
  update_PsfHdr f (mkSaveState (mkSFOParser hdr secs pairs path) buf)
  = (mkSaveState (mkSFOParser (f hdr) secs pairs path) buf, Ok tt).
Proof. reflexivity. Qed.

(** The loops of [SaveSFO_layout] compute [laid_out_PsfHdr] and
    [laid_out]: on a consistent model the layout ends without error or
    panic, the entries are untouched, and descriptor [j] is the one
    [laid_out] describes. *)
Lemma SaveSFO_layout_spec parser :
  consistent parser →
  ∃ secs' buf',
    SaveSFO_layout (mkSaveState parser [])
    = (mkSaveState (mkSFOParser (laid_out_PsfHdr parser) secs' (Pairs parser)
                                (FilePath parser)) buf', Ok tt)
    ∧ length secs' = length (parser_PsfSec parser)
    ∧ ∀ j sec e, parser_PsfSec parser !! j = Some sec → Pairs parser !! j = Some e →
                 secs' !! j = Some (laid_out (Pairs parser) j sec e).
Proof.
  destruct parser as [hdr secs pairs path]. intros (Hn & Hlen & Hwt).
  cbn [parser_PsfHdr parser_PsfSec Pairs FilePath] in *.
  set (parser := mkSFOParser hdr secs pairs path).
  set (hdr1 := set_LabelPtr (fresh_LabelPtr parser) hdr).
  unfold SaveSFO_layout. subst parser.
  step refresh_LabelPtr_eq. fold hdr1. step the_PsfHdr_eq.
  change (NSects hdr1) with (NSects hdr). rewrite Hn, Nat2Z.id.
  (* the label loop *)
  destruct (for_range_inv
    (λ k st, ∃ secs_k,
       st = mkSaveState (mkSFOParser hdr1 secs_k pairs path) (label_block (take k pairs))
       ∧ length secs_k = length secs
       ∧ ∀ j sec, secs !! j = Some sec →
           secs_k !! j = Some (if (j <? k)%nat
                               then set_LabelOff (int16 (label_start pairs j)) sec
                               else sec))
    write_label (length secs) 0 (mkSaveState (mkSFOParser hdr1 secs pairs path) []))
    as (st1 & Hloop1 & (secs1 & -> & Hlen1 & Hsecs1)).
  { exists secs. repeat split. intros j sec Hj. rewrite Hj. reflexivity. }
  { intros k s Hk (secs_k & -> & Hlk & Hsk).
    destruct (lookup_lt_is_Some_2 secs k ltac:(lia)) as [sec Hsec].
    destruct (lookup_lt_is_Some_2 pairs k ltac:(lia)) as [e He].
    pose proof (Hsk _ _ Hsec) as Hsec_k. rewrite Nat.ltb_irrefl in Hsec_k.
    eexists. split; [apply (write_label_step _ _ _ _ _ _ _ Hsec_k He)|].
    eexists. split; [reflexivity|]. split; [rewrite length_alter; exact Hlk|].
    intros j sec' Hj. destruct (decide (j = k)) as [-> | Hne].
    - rewrite list_lookup_alter_eq, Hsec_k. rewrite Hsec in Hj. injection Hj as <-.
      rewrite (proj2 (Nat.ltb_lt k (S k))) by lia. reflexivity.
    - rewrite list_lookup_alter_ne by congruence. rewrite (Hsk _ _ Hj).
      destruct (Nat.ltb_spec j k), (Nat.ltb_spec j (S k)); try reflexivity; lia. }
  cbn [Nat.add] in Hloop1, Hsecs1. unfold bind at 1. rewrite Hloop1. cbv beta iota.
  rewrite take_ge by lia.
  (* the data table offset and the padding *)
  step Len_eq. unfold bind at 1. unfold lift at 1. rewrite alignment_4. cbv beta iota.
  step update_PsfHdr_eq.
  set (hdr2 := set_DataPtr (int32 (aligned (zlen (label_block pairs)))) hdr1).
  step the_PsfHdr_eq. step pad_to_eq.
  change (DataPtr hdr2) with (int32 (aligned (zlen (label_block pairs)))).
  set (buf2 := label_block pairs ++ replicate _ x00).
  (* the data loop *)
  destruct (for_range_inv
    (λ k st, ∃ secs_k buf_k,
       st = mkSaveState (mkSFOParser hdr2 secs_k pairs path) buf_k
       ∧ zlen buf_k = data_start pairs k
       ∧ length secs_k = length secs
       ∧ ∀ j sec e, secs !! j = Some sec → pairs !! j = Some e →
           secs_k !! j = Some (if (j <? k)%nat
                               then laid_out pairs j sec e
                               else set_LabelOff (int16 (label_start pairs j)) sec))
    write_data (length secs) 0 (mkSaveState (mkSFOParser hdr2 secs1 pairs path) buf2))
    as (st2 & Hloop2 & (secs2 & buf3 & -> & _ & Hlen2 & Hsecs2)).
  { exists secs1, buf2. split; [reflexivity|]. split.
    { subst buf2. rewrite zlen_app, zlen_replicate. reflexivity. }
    split; [exact Hlen1|]. intros j sec e Hj He. rewrite (Hsecs1 _ _ Hj).
    apply lookup_lt_Some in Hj. rewrite (proj2 (Nat.ltb_lt j (length secs))) by lia.
    reflexivity. }
  { intros k s Hk (secs_k & buf_k & -> & Hbuf & Hlk & Hsk).
    destruct (lookup_lt_is_Some_2 secs k ltac:(lia)) as [sec Hsec].
    destruct (lookup_lt_is_Some_2 pairs k ltac:(lia)) as [e He].
    pose proof (Hsk _ _ _ Hsec He) as Hsec_k. rewrite Nat.ltb_irrefl in Hsec_k.
    assert (Hwe : well_typed e) by (rewrite Forall_lookup in Hwt; eapply Hwt; exact He).
    destruct (write_data_step hdr2 secs_k pairs path buf_k k _ e Hsec_k He Hwe)
      as (buf' & Hstep & Hbuf').
    eexists. split; [exact Hstep|].
    eexists _, buf'. split; [reflexivity|].
    split; [rewrite Hbuf', Hbuf, (data_start_S _ _ _ He); reflexivity|].
    split; [rewrite length_alter; exact Hlk|].
    intros j sec' e' Hj He'. destruct (decide (j = k)) as [-> | Hne].
    - rewrite list_lookup_alter_eq, Hsec_k. rewrite Hsec in Hj. injection Hj as <-.
      rewrite He in He'. injection He' as <-.
      rewrite (proj2 (Nat.ltb_lt k (S k))) by lia. rewrite Hbuf. reflexivity.
    - rewrite list_lookup_alter_ne by congruence. rewrite (Hsk _ _ _ Hj He').
      destruct (Nat.ltb_spec j k), (Nat.ltb_spec j (S k)); try reflexivity; lia. }
  cbn [Nat.add] in Hloop2, Hsecs2. rewrite Hloop2.
  exists secs2, buf3. split; [reflexivity|]. split; [exact Hlen2|].
  intros j sec e Hj He. rewrite (Hsecs2 _ _ _ Hj He).
  apply lookup_lt_Some in Hj. rewrite (proj2 (Nat.ltb_lt j (length secs))) by lia.
  reflexivity.
Qed.


(** [SaveSFO] on a consistent model whose file exists: the outcome in
    full. *)
Lemma SaveSFO_consistent_run parser fs data :
  consistent parser →
  fs !! FilePath parser = Some (Regular data) →
  ∃ secs',
    SaveSFO parser fs
    = (mkSFOParser (laid_out_PsfHdr parser) secs' (Pairs parser) (FilePath parser),
       <[FilePath parser :=
           Regular (encode_PsfHdr (laid_out_PsfHdr parser)
                    ++ concat (map encode_PsfSec secs')
                    ++ drop (20 + 16 * length secs') data)]> fs,
       Ok tt)
    ∧ length secs' = length (parser_PsfSec parser)
    ∧ ∀ j sec e, parser_PsfSec parser !! j = Some sec → Pairs parser !! j = Some e →
                 secs' !! j = Some (laid_out (Pairs parser) j sec e).
Proof.
  intros Hc Hfs.
  destruct (SaveSFO_layout_spec parser Hc) as (secs' & buf' & Hl & Hlen & Hsecs).
  exists secs'. split; [|split; assumption].
  rewrite (SaveSFO_after_layout parser fs data _ Hfs Hl).
  cbn [sv_parser parser_PsfHdr parser_PsfSec set_PsfHdr Pairs FilePath].
  assert (Hh : set_LabelPtr
                 (fresh_LabelPtr (mkSFOParser (laid_out_PsfHdr parser) secs' (Pairs parser)
                                              (FilePath parser)))
                 (laid_out_PsfHdr parser) = laid_out_PsfHdr parser).
  { unfold fresh_LabelPtr. cbn [parser_PsfSec]. rewrite Hlen. reflexivity. }
  rewrite Hh. reflexivity.
Qed.

Lemma laid_out_consistent parser secs' :
  consistent parser →
  length secs' = length (parser_PsfSec parser) →
  consistent (mkSFOParser (laid_out_PsfHdr parser) secs' (Pairs parser) (FilePath parser)).
Proof.
  intros (Hn & Hlen & Hwt) Hl. unfold consistent.
  cbn [parser_PsfHdr parser_PsfSec Pairs laid_out_PsfHdr NSects].
  rewrite Hl. repeat split; assumption.
Qed.

(** X16: on a consistent model [SaveSFO] returns [nil] exactly when the
    path names a regular file that the process may write: then it neither
    fails nor panics, it leaves the entries, the path, the magic number,
    the unknown header bytes and [NSects] as they were, and the model it
    leaves is consistent again.  On a file that may only be read it
    returns the error of the open and changes nothing. *)
Theorem SaveSFO_succeeds parser fs :
  consistent parser →
  (∀ data, fs !! FilePath parser = Some (Regular data) →
     ∃ parser' fs',
       SaveSFO parser fs = (parser', fs', Ok tt)
       ∧ consistent parser'
       ∧ Pairs parser' = Pairs parser
       ∧ FilePath parser' = FilePath parser
       ∧ Psf (parser_PsfHdr parser') = Psf (parser_PsfHdr parser)
       ∧ Unknown (parser_PsfHdr parser') = Unknown (parser_PsfHdr parser)
       ∧ NSects (parser_PsfHdr parser') = NSects (parser_PsfHdr parser))
  ∧ (∀ data, fs !! FilePath parser = Some (ReadOnly data) →
       SaveSFO parser fs = (parser, fs, Err ErrPermission))
  ∧ (snd (SaveSFO parser fs) = Ok tt
     ↔ ∃ data, fs !! FilePath parser = Some (Regular data)).
Proof.
  intros Hc.
  assert (Hrun : ∀ data, fs !! FilePath parser = Some (Regular data) →
            ∃ parser' fs',
              SaveSFO parser fs = (parser', fs', Ok tt)
              ∧ consistent parser'
              ∧ Pairs parser' = Pairs parser
              ∧ FilePath parser' = FilePath parser
              ∧ Psf (parser_PsfHdr parser') = Psf (parser_PsfHdr parser)
              ∧ Unknown (parser_PsfHdr parser') = Unknown (parser_PsfHdr parser)
              ∧ NSects (parser_PsfHdr parser') = NSects (parser_PsfHdr parser)).
  { intros data Hfs.
    destruct (SaveSFO_consistent_run parser fs data Hc Hfs) as (secs' & HS & Hlen & _).
    eexists _, _. split; [exact HS|].
    split; [apply laid_out_consistent; assumption|]. repeat split. }
  split; [exact Hrun|]. split.
  - intros data Hfs. unfold SaveSFO. cbv zeta. rewrite Hfs. reflexivity.
  - split.
    + destruct (fs !! FilePath parser) as [[|data|data]|] eqn:Hfs;
        [ | intros _; eauto | | ];
        unfold SaveSFO; cbv zeta; rewrite Hfs; discriminate.
    + intros [data Hfs]. destruct (Hrun data Hfs) as (parser' & fs' & -> & _).
      reflexivity.
Qed.

Lemma SaveSFO_succeeds_witness :
  (∃ parser' fs', SaveSFO example_parser (on_disk []) = (parser', fs', Ok tt)
                  ∧ Pairs parser' = Pairs example_parser)
  ∧ SaveSFO example_parser {[ sample_path := ReadOnly [] ]}
    = (example_parser, {[ sample_path := ReadOnly [] ]}, Err ErrPermission).
Proof.
  destruct (SaveSFO_succeeds example_parser (on_disk [])) as (H & _ & _);
    [repeat split; repeat constructor|].
  destruct (SaveSFO_succeeds example_parser {[ sample_path := ReadOnly [] ]})
    as (_ & H' & _); [repeat split; repeat constructor|].
  split.
  - destruct (H [] eq_refl) as (parser' & fs' & H1 & _ & H2 & _). eauto.
  - apply (H' []). reflexivity.
Defined.

(** X17: the fields [SaveSFO] stores for a consistent model.  In the
    header [LabelPtr] is [20 + 16 * len(PsfSec)] and [DataPtr] is the
    length of the label block, aligned.  In the descriptor of entry [j],
    [LabelOff] is the length of the labels in front of it, each with its
    zero byte; [DatafieldUsed] is the length of the value on the wire;
    [DatafieldSize] is [DatafieldUsed], aligned; the type tag and the
    unknown byte are kept.  Each number is truncated to the width of its
    field. *)
Theorem SaveSFO_fields parser fs data parser' fs' :
  consistent parser →
  fs !! FilePath parser = Some (Regular data) →
  SaveSFO parser fs = (parser', fs', Ok tt) →
  LabelPtr (parser_PsfHdr parser')
  = int32 (20 + Z.of_nat (length (parser_PsfSec parser)) * 16)
  ∧ (∃ a, alignment (zlen (label_block (Pairs parser))) 4 = Ok a
        ∧ DataPtr (parser_PsfHdr parser') = int32 a)
  ∧ length (parser_PsfSec parser') = length (parser_PsfSec parser)
  ∧ ∀ j sec e, parser_PsfSec parser !! j = Some sec → Pairs parser !! j = Some e →
      ∃ sec', parser_PsfSec parser' !! j = Some sec'
        ∧ LabelOff sec' = int16 (zlen (label_block (take j (Pairs parser))))
        ∧ DatafieldUsed sec' = int32 (zlen (wire e))
        ∧ (∃ a, alignment (DatafieldUsed sec') 4 = Ok a ∧ DatafieldSize sec' = int32 a)
        ∧ DataType sec' = DataType sec
        ∧ SecUnknown sec' = SecUnknown sec.
Proof.
  intros Hc Hfs HS.
  destruct (SaveSFO_consistent_run parser fs data Hc Hfs) as (secs' & HS' & Hlen & Hsecs).
  rewrite HS' in HS.
  assert (E1 : mkSFOParser (laid_out_PsfHdr parser) secs' (Pairs parser) (FilePath parser)
               = parser') by congruence.
  clear HS HS'. subst parser'.
  cbn [parser_PsfHdr parser_PsfSec laid_out_PsfHdr LabelPtr DataPtr].
  split; [reflexivity|].
  split; [eexists; split; [apply alignment_4 | reflexivity]|].
  split; [exact Hlen|].
  intros j sec e Hj He. eexists. split; [apply (Hsecs _ _ _ Hj He)|].
  cbn [laid_out LabelOff DatafieldUsed DatafieldSize DataType SecUnknown].
  repeat split. eexists. split; [apply alignment_4 | reflexivity].
Qed.

Lemma SaveSFO_fields_witness :
  LabelPtr (parser_PsfHdr (SaveSFO example_parser (on_disk [])).1.1) = 52.
Proof.
  destruct (SaveSFO_fields example_parser (on_disk []) []
              (SaveSFO example_parser (on_disk [])).1.1
              (SaveSFO example_parser (on_disk [])).1.2) as (H1 & _).
  - repeat split. repeat constructor.
  - reflexivity.
  - run.
  - rewrite H1. reflexivity.
Defined.

(** X18: saving twice is saving once.  After a [SaveSFO] that returned
    [nil] on a consistent model, a second [SaveSFO] returns [nil] and
    changes neither the model nor the file system. *)
Theorem SaveSFO_idempotent parser fs data parser' fs' :
  consistent parser →
  fs !! FilePath parser = Some (Regular data) →
  SaveSFO parser fs = (parser', fs', Ok tt) →
  SaveSFO parser' fs' = (parser', fs', Ok tt).
Proof.
  intros Hc Hfs HS.
  destruct (SaveSFO_consistent_run parser fs data Hc Hfs) as (secs' & HS' & Hlen & Hsecs).
  rewrite HS' in HS.
  assert (E1 : mkSFOParser (laid_out_PsfHdr parser) secs' (Pairs parser) (FilePath parser)
               = parser') by congruence.
  assert (E2 : <[FilePath parser :=
                   Regular (encode_PsfHdr (laid_out_PsfHdr parser)
                            ++ concat (map encode_PsfSec secs')
                            ++ drop (20 + 16 * length secs') data)]> fs = fs')
    by congruence.
  clear HS HS'. subst parser' fs'.
  set (parser' := mkSFOParser (laid_out_PsfHdr parser) secs' (Pairs parser) (FilePath parser)).
  set (saved := encode_PsfHdr (laid_out_PsfHdr parser) ++ concat (map encode_PsfSec secs')
                ++ drop (20 + 16 * length secs') data).
  assert (Hc' : consistent parser') by (apply laid_out_consistent; assumption).
  destruct (SaveSFO_consistent_run parser' (<[FilePath parser := Regular saved]> fs) saved Hc')
    as (secs'' & HS'' & Hlen' & Hsecs'').
  { apply lookup_insert_eq. }
  cbn [parser_PsfSec Pairs FilePath parser'] in *.
  assert (Hh : laid_out_PsfHdr parser' = laid_out_PsfHdr parser).
  { destruct Hc as (_ & _ & _). unfold laid_out_PsfHdr, fresh_LabelPtr, parser'.
    cbn [parser_PsfHdr parser_PsfSec Pairs Psf Unknown NSects]. rewrite Hlen. reflexivity. }
  assert (Hs : secs'' = secs').
  { apply list_eq. intros j.
    destruct (secs' !! j) as [sec'|] eqn:Hj.
    - destruct (lookup_lt_is_Some_2 (parser_PsfSec parser) j) as [sec Hsec].
      { apply lookup_lt_Some in Hj. lia. }
      destruct (lookup_lt_is_Some_2 (Pairs parser) j) as [e He].
      { destruct Hc as (_ & Hl & _). apply lookup_lt_Some in Hj. lia. }
      rewrite (Hsecs'' _ _ _ Hj He).
      pose proof (Hsecs _ _ _ Hsec He) as Hj'. rewrite Hj in Hj'. injection Hj' as ->.
      reflexivity.
    - apply lookup_ge_None. apply lookup_ge_None in Hj. lia. }
  rewrite HS'', Hh, Hs. fold parser'.
  assert (Hd : drop (20 + 16 * length secs') saved = drop (20 + 16 * length secs') data).
  { subst saved. rewrite app_assoc. apply drop_app_length'.
    rewrite length_app, length_encode_PsfHdr, length_concat_encode_PsfSec. reflexivity. }
  rewrite Hd. fold saved. rewrite insert_insert_eq. reflexivity.
Qed.

Lemma SaveSFO_idempotent_witness :
  SaveSFO (SaveSFO sample_parser (on_disk sample_file)).1.1
          (SaveSFO sample_parser (on_disk sample_file)).1.2
  = SaveSFO sample_parser (on_disk sample_file).
Proof.
  rewrite (SaveSFO_idempotent sample_parser (on_disk sample_file) sample_file
             (SaveSFO sample_parser (on_disk sample_file)).1.1
             (SaveSFO sample_parser (on_disk sample_file)).1.2);
    [run | repeat split; repeat constructor | reflexivity | run].
Defined.




(** ** The layout in plain arithmetic *)

Lemma round_up4_bounds n : n ≤ round_up4 n ≤ n + 3.
Proof.
  unfold round_up4.
  pose proof (Z.div_mod (n + 3) 4 ltac:(lia)).
  pose proof (Z.mod_pos_bound (n + 3) 4 ltac:(lia)). lia.
Qed.

Lemma aligned_round_up4 n : 0 ≤ n ≤ MaxInt - 3 → aligned n = round_up4 n.
Proof.
  intros Hn. unfold aligned. rewrite (alignment_in_range n Hn). unfold round_up4.
  pose proof (Z.div_mod n 4 ltac:(lia)) as Hd.
  pose proof (Z.mod_pos_bound n 4 ltac:(lia)) as Hm.
  destruct (n mod 4 =? 0) eqn:E.
  - apply Z.eqb_eq in E.
    replace (n + 3) with (3 + n / 4 * 4) by lia.
    rewrite Z.div_add by lia. change (3 / 4) with 0. lia.
  - apply Z.eqb_neq in E.
    replace (n + 3) with ((n mod 4 - 1) + (n / 4 + 1) * 4) by lia.
    rewrite Z.div_add by lia. rewrite (Z.div_small (n mod 4 - 1)) by lia. lia.
Qed.

Lemma int32_small x : - 2 ^ 31 ≤ x < 2 ^ 31 → int32 x = x.
Proof. intros H. apply wrap_small; [lia | exact H]. Qed.

Lemma int16_small x : - 2 ^ 15 ≤ x < 2 ^ 15 → int16 x = x.
Proof. intros H. apply wrap_small; [lia | exact H]. Qed.

Lemma zlen_nonneg l : 0 ≤ zlen l.
Proof. unfold zlen. lia. Qed.

Lemma padded_length_cons e pairs :
  padded_length (e :: pairs) = round_up4 (zlen (wire e)) + padded_length pairs.
Proof. reflexivity. Qed.

Lemma padded_length_nonneg pairs : 0 ≤ padded_length pairs.
Proof.
  induction pairs as [|e pairs IH]; [cbn; lia|]. rewrite padded_length_cons.
  pose proof (round_up4_bounds (zlen (wire e))). pose proof (zlen_nonneg (wire e)). lia.
Qed.

Lemma padded_length_app l1 l2 :
  padded_length (l1 ++ l2) = padded_length l1 + padded_length l2.
Proof.
  induction l1 as [|e l1 IH]; [reflexivity|].
  cbn [app]. rewrite !padded_length_cons, IH. lia.
Qed.

Lemma padded_length_take k pairs : padded_length (take k pairs) ≤ padded_length pairs.
Proof.
  rewrite <- (take_drop k pairs) at 2. rewrite padded_length_app.
  pose proof (padded_length_nonneg (drop k pairs)). lia.
Qed.

Lemma label_block_take k pairs : zlen (label_block (take k pairs)) ≤ zlen (label_block pairs).
Proof.
  rewrite <- (take_drop k pairs) at 2. unfold label_block.
  rewrite map_app, concat_app, zlen_app.
  pose proof (zlen_nonneg (concat (map (λ e, Label e ++ [x00]) (drop k pairs)))). lia.
Qed.

(** Below 2^31 the sizes and the buffer length are the plain ones. *)
Lemma data_end_exact s e :
  0 ≤ s → s + round_up4 (zlen (wire e)) < 2 ^ 31 →
  used_size e = zlen (wire e)
  ∧ reserved_size e = round_up4 (zlen (wire e))
  ∧ data_end s e = s + round_up4 (zlen (wire e)).
Proof.
  intros Hs Hb. pose proof (zlen_nonneg (wire e)) as Hw.
  pose proof (round_up4_bounds (zlen (wire e))) as Hr.
  change (2 ^ 31) with 2147483648 in *.
  assert (Hu : used_size e = zlen (wire e)).
  { unfold used_size. apply int32_small. change (2 ^ 31) with 2147483648. lia. }
  assert (Hres : reserved_size e = round_up4 (zlen (wire e))).
  { unfold reserved_size. rewrite Hu, aligned_round_up4 by (rewrite MaxInt_eq; lia).
    apply int32_small. change (2 ^ 31) with 2147483648. lia. }
  repeat split; [exact Hu | exact Hres |].
  unfold data_end. cbv zeta. rewrite Hres.
  rewrite (int32_small s) by (change (2 ^ 31) with 2147483648; lia).
  rewrite int32_small by (change (2 ^ 31) with 2147483648; lia). lia.
Qed.

Lemma data_start_exact pairs k :
  round_up4 (zlen (label_block pairs)) + padded_length pairs < 2 ^ 31 →
  data_start pairs k = round_up4 (zlen (label_block pairs)) + padded_length (take k pairs).
Proof.
  intros Hb. pose proof (zlen_nonneg (label_block pairs)) as HL.
  pose proof (round_up4_bounds (zlen (label_block pairs))) as HR.
  pose proof (padded_length_nonneg pairs) as HP.
  change (2 ^ 31) with 2147483648 in *.
  induction k as [|k IH].
  - unfold data_start, data_begin. rewrite take_0. cbn [foldl padded_length foldr]. cbv zeta.
    rewrite aligned_round_up4 by (rewrite MaxInt_eq; lia).
    rewrite int32_small by (change (2 ^ 31) with 2147483648; lia). lia.
  - destruct (pairs !! k) as [e|] eqn:He.
    + rewrite (data_start_S _ _ _ He), IH, (take_S_r _ _ _ He), padded_length_app.
      pose proof (padded_length_take (S k) pairs) as Ht.
      rewrite (take_S_r _ _ _ He), padded_length_app in Ht. cbn [padded_length foldr] in *.
      pose proof (padded_length_nonneg (take k pairs)).
      destruct (data_end_exact (round_up4 (zlen (label_block pairs))
                                + padded_length (take k pairs)) e) as (_ & _ & ->);
        [lia | change (2 ^ 31) with 2147483648; lia | lia].
    + apply lookup_ge_None in He. unfold data_start in *.
      rewrite !take_ge in * by lia. exact IH.
Qed.

(** X20: the layout in plain numbers.  For a consistent model whose label
    block and data block stay below 32768 bytes together, [SaveSFO] stores
    [DataPtr] = the length of the label block rounded up to a multiple of
    4, and for entry [j]: [LabelOff] = the length of the labels in front of
    it with their zero bytes; [DatafieldUsed] = the length of its value;
    [DatafieldSize] = that length rounded up to a multiple of 4; [DataOff]
    = [DataPtr] plus the rounded lengths of the values in front of it. *)
Theorem SaveSFO_layout_exact parser fs data parser' fs' :
  consistent parser →
  fs !! FilePath parser = Some (Regular data) →
  SaveSFO parser fs = (parser', fs', Ok tt) →
  round_up4 (zlen (label_block (Pairs parser))) + padded_length (Pairs parser) < 2 ^ 15 →
  DataPtr (parser_PsfHdr parser') = round_up4 (zlen (label_block (Pairs parser)))
  ∧ ∀ j sec' e, parser_PsfSec parser' !! j = Some sec' → Pairs parser !! j = Some e →
      LabelOff sec' = zlen (label_block (take j (Pairs parser)))
      ∧ DatafieldUsed sec' = zlen (wire e)
      ∧ DatafieldSize sec' = round_up4 (zlen (wire e))
      ∧ DataOff sec' = DataPtr (parser_PsfHdr parser') + padded_length (take j (Pairs parser)).
Proof.
  intros Hc Hfs HS Hb.
  destruct (SaveSFO_consistent_run parser fs data Hc Hfs) as (secs' & HS' & Hlen & Hsecs).
  rewrite HS' in HS.
  assert (E1 : mkSFOParser (laid_out_PsfHdr parser) secs' (Pairs parser) (FilePath parser)
               = parser') by congruence.
  clear HS HS'. subst parser'.
  cbn [parser_PsfHdr parser_PsfSec laid_out_PsfHdr DataPtr].
  set (pairs := Pairs parser) in *.
  pose proof (zlen_nonneg (label_block pairs)) as HL.
  pose proof (round_up4_bounds (zlen (label_block pairs))) as HR.
  pose proof (padded_length_nonneg pairs) as HP.
  change (2 ^ 15) with 32768 in Hb.
  assert (HD : int32 (aligned (zlen (label_block pairs)))
               = round_up4 (zlen (label_block pairs))).
  { rewrite aligned_round_up4 by (rewrite MaxInt_eq; lia).
    apply int32_small. change (2 ^ 31) with 2147483648. lia. }
  split; [exact HD|].
  intros j sec' e Hj He.
  destruct (lookup_lt_is_Some_2 (parser_PsfSec parser) j) as [sec Hsec].
  { apply lookup_lt_Some in Hj. lia. }
  rewrite (Hsecs _ _ _ Hsec He) in Hj. injection Hj as <-.
  cbn [laid_out LabelOff DatafieldUsed DatafieldSize DataOff].
  pose proof (label_block_take j pairs) as HLj.
  pose proof (zlen_nonneg (label_block (take j pairs))) as HLj0.
  pose proof (padded_length_take (S j) pairs) as Ht.
  rewrite (take_S_r _ _ _ He), padded_length_app in Ht. cbn [padded_length foldr] in Ht.
  pose proof (padded_length_nonneg (take j pairs)) as HPj.
  rewrite (data_start_exact pairs j) by (change (2 ^ 31) with 2147483648; lia).
  destruct (data_end_exact (round_up4 (zlen (label_block pairs))
                            + padded_length (take j pairs)) e) as (Hu & Hr & _);
    [lia | change (2 ^ 31) with 2147483648; lia |].
  rewrite HD, Hu, Hr. unfold label_start.
  pose proof (round_up4_bounds (zlen (wire e))) as Hre.
  pose proof (zlen_nonneg (wire e)) as Hwe.
  rewrite int16_small by (change (2 ^ 15) with 32768; lia).
  rewrite int32_small by (change (2 ^ 31) with 2147483648; lia).
  repeat split.
Qed.

Lemma SaveSFO_layout_exact_witness :
  DataPtr (parser_PsfHdr (SaveSFO example_parser (on_disk [])).1.1) = 16
  ∧ DataOff <$> parser_PsfSec (SaveSFO example_parser (on_disk [])).1.1 = [16; 24].
Proof.
  destruct (SaveSFO_layout_exact example_parser (on_disk []) []
              (SaveSFO example_parser (on_disk [])).1.1
              (SaveSFO example_parser (on_disk [])).1.2) as (H1 & _).
  - repeat split. repeat constructor.
  - reflexivity.
  - run.
  - vm_compute. reflexivity.
  - split; [rewrite H1; reflexivity | run].
Defined.


(** ** The structs on the wire *)

Lemma Z_of_byte_range b : 0 ≤ Z_of_byte b < 256.
Proof.
  unfold Z_of_byte. pose proof (Byte.to_N_bounded b). lia.
Qed.

Lemma byte_of_Z_of_byte b : byte_of_Z (Z_of_byte b) = b.
Proof.
  unfold byte_of_Z. rewrite Z.mod_small by apply Z_of_byte_range.
  unfold Z_of_byte. rewrite N2Z.id, Byte.of_to_N. reflexivity.
Qed.

Lemma Z_of_byte_of_Z z : Z_of_byte (byte_of_Z z) = z mod 256.
Proof.
  unfold byte_of_Z, Z_of_byte.
  pose proof (Z.mod_pos_bound z 256 ltac:(lia)) as Hm.
  destruct (Byte.of_N (Z.to_N (z mod 256))) as [b|] eqn:E.
  - apply Byte.to_of_N in E. change (default x00 (Some b)) with b. rewrite E. lia.
  - apply Byte.of_N_None_iff in E. lia.
Qed.

Lemma byte_of_Z_shift z k : byte_of_Z (z + k * 256) = byte_of_Z z.
Proof. unfold byte_of_Z. rewrite Z_mod_plus_full. reflexivity. Qed.

Lemma le_bytes_shift n : ∀ z k, le_bytes n (z + k * 256 ^ Z.of_nat n) = le_bytes n z.
Proof.
  induction n as [|n IH]; intros z k; [reflexivity|].
  cbn [le_bytes]. rewrite Nat2Z.inj_succ, Z.pow_succ_r by lia.
  replace (z + k * (256 * 256 ^ Z.of_nat n)) with (z + k * 256 ^ Z.of_nat n * 256) by lia.
  rewrite byte_of_Z_shift, Z.div_add by lia. rewrite IH. reflexivity.
Qed.

Lemma wrap_shift bits x : 0 < bits → ∃ q, wrap bits x = x + q * 2 ^ bits.
Proof.
  intros Hb. exists (- ((x + 2 ^ (bits - 1)) / 2 ^ bits)). unfold wrap.
  assert (0 < 2 ^ bits) by (apply Z.pow_pos_nonneg; lia).
  rewrite Z.mod_eq by lia. lia.
Qed.

Lemma le_bytes_int16 x : le_bytes 2 (int16 x) = le_bytes 2 x.
Proof.
  destruct (wrap_shift 16 x ltac:(lia)) as [q Hq]. unfold int16. rewrite Hq.
  apply (le_bytes_shift 2).
Qed.

Lemma le_bytes_int32 x : le_bytes 4 (int32 x) = le_bytes 4 x.
Proof.
  destruct (wrap_shift 32 x ltac:(lia)) as [q Hq]. unfold int32. rewrite Hq.
  apply (le_bytes_shift 4).
Qed.

Lemma le_bytes_le_uint bs : le_bytes (length bs) (le_uint bs) = bs.
Proof.
  induction bs as [|b bs IH]; [reflexivity|].
  cbn [length le_bytes le_uint]. pose proof (Z_of_byte_range b) as Hb.
  replace (Z_of_byte b + 256 * le_uint bs) with (Z_of_byte b + le_uint bs * 256) by lia.
  rewrite byte_of_Z_shift, byte_of_Z_of_byte, Z.div_add by lia.
  rewrite Z.div_small, Z.add_0_l by lia. rewrite IH. reflexivity.
Qed.

Lemma le_uint_le_bytes n : ∀ z, le_uint (le_bytes n z) = z mod 256 ^ Z.of_nat n.
Proof.
  induction n as [|n IH]; intros z.
  - cbn. rewrite Z.mod_1_r. reflexivity.
  - cbn [le_bytes le_uint]. rewrite IH, Z_of_byte_of_Z.
    rewrite Nat2Z.inj_succ, Z.pow_succ_r by lia.
    rewrite Z.rem_mul_r by (try apply Z.pow_pos_nonneg; lia). reflexivity.
Qed.

Lemma int16_le_bytes x : - 2 ^ 15 ≤ x < 2 ^ 15 → int16 (le_uint (le_bytes 2 x)) = x.
Proof.
  intros H. rewrite le_uint_le_bytes. unfold int16.
  rewrite (wrap_congruent 16 _ x) by (try apply Z.mod_mod; lia).
  apply wrap_small; [lia | exact H].
Qed.

Lemma int32_le_bytes x : - 2 ^ 31 ≤ x < 2 ^ 31 → int32 (le_uint (le_bytes 4 x)) = x.
Proof.
  intros H. rewrite le_uint_le_bytes. unfold int32.
  rewrite (wrap_congruent 32 _ x) by (try apply Z.mod_mod; lia).
  apply wrap_small; [lia | exact H].
Qed.

Lemma decode_encode_PsfSec sec :
  - 2 ^ 15 ≤ LabelOff sec < 2 ^ 15 →
  - 2 ^ 31 ≤ DatafieldUsed sec < 2 ^ 31 →
  - 2 ^ 31 ≤ DatafieldSize sec < 2 ^ 31 →
  - 2 ^ 31 ≤ DataOff sec < 2 ^ 31 →
  decode_PsfSec (encode_PsfSec sec) = sec.
Proof.
  destruct sec as [lo un ty us sz off].
  cbn [LabelOff DatafieldUsed DatafieldSize DataOff].
  intros H1 H2 H3 H4. unfold decode_PsfSec, encode_PsfSec.
  cbn [LabelOff SecUnknown DataType DatafieldUsed DatafieldSize DataOff].
  cbn [le_bytes app field drop take byte_at lookup list_lookup default from_option id].
  change [byte_of_Z lo; byte_of_Z (lo / 256)] with (le_bytes 2 lo).
  change [byte_of_Z us; byte_of_Z (us / 256); byte_of_Z (us / 256 / 256);
          byte_of_Z (us / 256 / 256 / 256)] with (le_bytes 4 us).
  change [byte_of_Z sz; byte_of_Z (sz / 256); byte_of_Z (sz / 256 / 256);
          byte_of_Z (sz / 256 / 256 / 256)] with (le_bytes 4 sz).
  change [byte_of_Z off; byte_of_Z (off / 256); byte_of_Z (off / 256 / 256);
          byte_of_Z (off / 256 / 256 / 256)] with (le_bytes 4 off).
  rewrite int16_le_bytes, !int32_le_bytes by assumption. reflexivity.
Qed.

Lemma encode_decode_PsfSec bs : length bs = 16%nat → encode_PsfSec (decode_PsfSec bs) = bs.
Proof.
  intros Hlen.
  do 16 (destruct bs as [|? bs]; [discriminate Hlen|]).
  destruct bs; [|discriminate Hlen].
  unfold decode_PsfSec, encode_PsfSec.
  cbn [LabelOff SecUnknown DataType DatafieldUsed DatafieldSize DataOff].
  cbn [field drop take byte_at lookup list_lookup default from_option id].
  rewrite le_bytes_int16, !le_bytes_int32.
  rewrite (le_bytes_le_uint [_; _]), !(le_bytes_le_uint [_; _; _; _]). reflexivity.
Qed.

Lemma decode_encode_PsfHdr hdr :
  - 2 ^ 31 ≤ LabelPtr hdr < 2 ^ 31 →
  - 2 ^ 31 ≤ DataPtr hdr < 2 ^ 31 →
  - 2 ^ 31 ≤ NSects hdr < 2 ^ 31 →
  decode_PsfHdr (encode_PsfHdr hdr) = hdr.
Proof.
  destruct hdr as [[[[m0 m1] m2] m3] [[[u0 u1] u2] u3] lp dp ns].
  cbn [LabelPtr DataPtr NSects]. intros H1 H2 H3.
  unfold decode_PsfHdr, encode_PsfHdr, bytes_of_byte4.
  cbn [Psf Unknown LabelPtr DataPtr NSects].
  cbn [le_bytes app field drop take byte_at lookup list_lookup default from_option id].
  change [byte_of_Z lp; byte_of_Z (lp / 256); byte_of_Z (lp / 256 / 256);
          byte_of_Z (lp / 256 / 256 / 256)] with (le_bytes 4 lp).
  change [byte_of_Z dp; byte_of_Z (dp / 256); byte_of_Z (dp / 256 / 256);
          byte_of_Z (dp / 256 / 256 / 256)] with (le_bytes 4 dp).
  change [byte_of_Z ns; byte_of_Z (ns / 256); byte_of_Z (ns / 256 / 256);
          byte_of_Z (ns / 256 / 256 / 256)] with (le_bytes 4 ns).
  rewrite !int32_le_bytes by assumption. reflexivity.
Qed.

Lemma encode_decode_PsfHdr bs : length bs = 20%nat → encode_PsfHdr (decode_PsfHdr bs) = bs.
Proof.
  intros Hlen.
  do 20 (destruct bs as [|? bs]; [discriminate Hlen|]).
  destruct bs; [|discriminate Hlen].
  unfold decode_PsfHdr, encode_PsfHdr, bytes_of_byte4.
  cbn [Psf Unknown LabelPtr DataPtr NSects].
  cbn [field drop take byte_at lookup list_lookup default from_option id].
  rewrite !le_bytes_int32, !(le_bytes_le_uint [_; _; _; _]). reflexivity.
Qed.

(** X21: a descriptor survives the wire in both directions: the 16 bytes
    written for a descriptor whose numbers fit their fields decode to that
    descriptor, and any 16 bytes decoded and written again are the same
    bytes. *)
Theorem PsfSec_wire_roundtrip :
  (∀ sec,
     - 2 ^ 15 ≤ LabelOff sec < 2 ^ 15 →
     - 2 ^ 31 ≤ DatafieldUsed sec < 2 ^ 31 →
     - 2 ^ 31 ≤ DatafieldSize sec < 2 ^ 31 →
     - 2 ^ 31 ≤ DataOff sec < 2 ^ 31 →
     decode_PsfSec (encode_PsfSec sec) = sec)
  ∧ (∀ bs, length bs = 16%nat → encode_PsfSec (decode_PsfSec bs) = bs).
Proof. split; [apply decode_encode_PsfSec | apply encode_decode_PsfSec]. Qed.

(** X22: so does the header: the 20 bytes written for a header whose
    numbers fit 32 bits decode to that header, and any 20 bytes decoded
    and written again are the same bytes. *)
Theorem PsfHdr_wire_roundtrip :
  (∀ hdr,
     - 2 ^ 31 ≤ LabelPtr hdr < 2 ^ 31 →
     - 2 ^ 31 ≤ DataPtr hdr < 2 ^ 31 →
     - 2 ^ 31 ≤ NSects hdr < 2 ^ 31 →
     decode_PsfHdr (encode_PsfHdr hdr) = hdr)
  ∧ (∀ bs, length bs = 20%nat → encode_PsfHdr (decode_PsfHdr bs) = bs).
Proof. split; [apply decode_encode_PsfHdr | apply encode_decode_PsfHdr]. Qed.

(** Descriptors that stand encoded in the file are read back. *)
Lemma read_PsfSecs_encoded secs : ∀ f rest,
  0 ≤ offset f →
  unread f = concat (map encode_PsfSec secs) ++ rest →
  Forall (λ sec, decode_PsfSec (encode_PsfSec sec) = sec) secs →
  ∃ f', read_PsfSecs (length secs) f = (f', Ok secs).
Proof.
  induction secs as [|sec secs IH]; intros f rest Ho Hu HF.
  - eexists. reflexivity.
  - apply Forall_cons in HF as [Hsec HF].
    cbn [length read_PsfSecs map concat] in *. rewrite <- app_assoc in Hu.
    change (Z.to_nat sizeof_PsfSec) with 16%nat.
    assert (HR : ReadFull 16 f
                 = (mkFile (content f) (offset f + Z.of_nat 16), Ok (encode_PsfSec sec))).
    { unfold ReadFull. rewrite Hu, length_app, length_encode_PsfSec.
      destruct (Nat.leb_spec 16 (16 + length (concat (map encode_PsfSec secs) ++ rest)));
        [|lia].
      rewrite take_app_length' by (rewrite length_encode_PsfSec; reflexivity).
      reflexivity. }
    destruct (IH (mkFile (content f) (offset f + Z.of_nat 16)) rest) as [f' Hf'].
    + cbn [offset]. lia.
    + rewrite unread_advance by exact Ho. rewrite Hu.
      apply drop_app_length'. rewrite length_encode_PsfSec. reflexivity.
    + exact HF.
    + exists f'. unfold bind at 1. rewrite HR. cbv beta iota.
      unfold bind at 1. rewrite Hf'. cbv beta iota. rewrite Hsec. reflexivity.
Qed.

Lemma PsfHdr_wire_roundtrip_witness :
  decode_PsfHdr (encode_PsfHdr sample_PsfHdr) = sample_PsfHdr.
Proof. apply (proj1 PsfHdr_wire_roundtrip sample_PsfHdr); cbn; lia. Defined.

Lemma PsfSec_wire_roundtrip_witness :
  decode_PsfSec (encode_PsfSec sample_PsfSec) = sample_PsfSec.
Proof. apply (proj1 PsfSec_wire_roundtrip sample_PsfSec); cbn; lia. Defined.

Lemma laid_out_fits pairs j sec e :
  decode_PsfSec (encode_PsfSec (laid_out pairs j sec e)) = laid_out pairs j sec e.
Proof.
  apply decode_encode_PsfSec; cbn [laid_out LabelOff DatafieldUsed DatafieldSize DataOff].
  - apply (wrap_range 16). lia.
  - apply (wrap_range 32). lia.
  - apply (wrap_range 32). lia.
  - apply (wrap_range 32). lia.
Qed.

(** X23: what [SaveSFO] writes in front of the blocks is what
    [NewSFOParser] reads there.  After a [SaveSFO] that returned [nil] on a
    consistent model, a model that [NewSFOParser] returns for the saved
    file has the header and the descriptors of the saved model. *)
Theorem saved_table_read_back parser fs data parser' fs' reread :
  consistent parser →
  NSects (parser_PsfHdr parser) < 2 ^ 31 →
  fs !! FilePath parser = Some (Regular data) →
  SaveSFO parser fs = (parser', fs', Ok tt) →
  NewSFOParser fs' (FilePath parser) = Ok reread →
  parser_PsfHdr reread = parser_PsfHdr parser'
  ∧ parser_PsfSec reread = parser_PsfSec parser'.
Proof.
  intros Hc Hns Hfs HS HN.
  destruct (SaveSFO_consistent_run parser fs data Hc Hfs) as (secs' & HS' & Hlen & Hsecs).
  rewrite HS' in HS.
  assert (E1 : mkSFOParser (laid_out_PsfHdr parser) secs' (Pairs parser) (FilePath parser)
               = parser') by congruence.
  assert (E2 : <[FilePath parser :=
                   Regular (encode_PsfHdr (laid_out_PsfHdr parser)
                            ++ concat (map encode_PsfSec secs')
                            ++ drop (20 + 16 * length secs') data)]> fs = fs')
    by congruence.
  clear HS HS'. subst parser' fs'. cbn [parser_PsfHdr parser_PsfSec].
  set (saved := encode_PsfHdr _ ++ _) in HN.
  apply (NewSFOParser_Regular _ _ saved) in HN as (file' & Hp);
    [|apply lookup_insert_eq].
  destruct Hc as (Hn & Hpl & Hwt).
  assert (Hhdr : decode_PsfHdr (encode_PsfHdr (laid_out_PsfHdr parser))
                 = laid_out_PsfHdr parser).
  { apply decode_encode_PsfHdr; cbn [laid_out_PsfHdr LabelPtr DataPtr NSects].
    - apply (wrap_range 32). lia.
    - apply (wrap_range 32). lia.
    - rewrite Hn. change (2 ^ 31) with 2147483648 in *. lia. }
  assert (HF : Forall (λ sec, decode_PsfSec (encode_PsfSec sec) = sec) secs').
  { apply Forall_lookup. intros j sec' Hj.
    destruct (lookup_lt_is_Some_2 (parser_PsfSec parser) j) as [sec Hsec].
    { apply lookup_lt_Some in Hj. lia. }
    destruct (lookup_lt_is_Some_2 (Pairs parser) j) as [e He].
    { apply lookup_lt_Some in Hj. lia. }
    rewrite (Hsecs _ _ _ Hsec He) in Hj. injection Hj as <-. apply laid_out_fits. }
  unfold parse in Hp. change (Z.to_nat sizeof_PsfHdr) with 20%nat in Hp.
  apply bind_Ok in Hp as (bs & f1 & HR & Hp).
  rewrite ReadFull_start in HR
    by (subst saved; rewrite length_app, length_encode_PsfHdr; lia).
  injection HR as <- <-.
  assert (Ht : take 20 saved = encode_PsfHdr (laid_out_PsfHdr parser)).
  { subst saved. apply take_app_length'. rewrite length_encode_PsfHdr. reflexivity. }
  rewrite Ht, Hhdr in Hp.
  destruct (negb _); [discriminate|].
  destruct (NSects (laid_out_PsfHdr parser) <? 0); [discriminate|].
  destruct (out_of_memory _ _); [discriminate|].
  apply bind_Ok in Hp as (secs & f2 & Hs & Hp).
  change (out_of_memory unlimited _) with false in Hp. cbv iota in Hp.
  apply bind_Ok in Hp as (pairs & f3 & _ & Hp).
  injection Hp as _ <-. cbn [parser_PsfHdr parser_PsfSec]. split; [reflexivity|].
  destruct (read_PsfSecs_encoded secs' (mkFile saved (Z.of_nat 20))
              (drop (20 + 16 * length secs') data)) as [f' Hf'].
  - cbn. lia.
  - unfold unread. cbn [content offset]. rewrite Nat2Z.id. subst saved.
    apply drop_app_length'. rewrite length_encode_PsfHdr. reflexivity.
  - exact HF.
  - cbn [laid_out_PsfHdr NSects] in Hs. rewrite Hn, Nat2Z.id, <- Hlen in Hs.
    rewrite Hf' in Hs. congruence.
Qed.

Lemma saved_table_read_back_witness :
  ∃ reread,
    NewSFOParser (SaveSFO sample_parser (on_disk sample_file)).1.2 sample_path = Ok reread
    ∧ parser_PsfSec reread = parser_PsfSec (SaveSFO sample_parser (on_disk sample_file)).1.1.
Proof.
  destruct (NewSFOParser (SaveSFO sample_parser (on_disk sample_file)).1.2 sample_path)
    as [reread| |] eqn:HN; [|exfalso; revert HN; vm_compute; discriminate..].
  exists reread. split; [reflexivity|].
  apply (saved_table_read_back sample_parser (on_disk sample_file) sample_file
           (SaveSFO sample_parser (on_disk sample_file)).1.1
           (SaveSFO sample_parser (on_disk sample_file)).1.2 reread);
    [repeat split; repeat constructor | vm_compute; reflexivity | reflexivity | run | exact HN].
Defined.

(** ** The command *)

Lemma main_loop_prints parser count : ∀ k,
  (k + count = length (Pairs parser))%nat →
  ∃ out,
    main_loop parser count (Z.of_nat k) = (out, Exit 0)
    ∧ Forall2 (λ e o, ∃ v, GetValue parser (Label e) = Ok v ∧ o = Printf_pair (Label e) v)
              (drop k (Pairs parser)) out.
Proof.
  induction count as [|count IH]; intros k Hk.
  - exists []. split; [reflexivity|]. rewrite drop_ge by lia. constructor.
  - destruct (lookup_lt_is_Some_2 (Pairs parser) k ltac:(lia)) as [e He].
    assert (Hkey : GetKeyByIndex parser (Z.of_nat k) = Ok (Label e)).
    { unfold GetKeyByIndex.
      assert (Hl : Pairs parser !! Z.to_nat (Z.of_nat k) = Some e)
        by (rewrite Nat2Z.id; exact He).
      in_range (Nat2Z.is_nonneg k) Hl. reflexivity. }
    assert (Hval : ∃ v, GetValue parser (Label e) = Ok v).
    { unfold GetValue.
      destruct (GetValue_scan_outcome (Pairs parser) (Label e))
        as [[_ Hnf] | (pre & e' & post & _ & _ & _ & Hv)]; [|eauto].
      rewrite Forall_lookup in Hnf. specialize (Hnf _ _ He). contradiction. }
    destruct Hval as [v Hv].
    destruct (IH (S k) ltac:(lia)) as (out & Hout & HF).
    exists (Printf_pair (Label e) v :: out). split.
    + cbn [main_loop]. rewrite Hkey, Hv.
      replace (Z.of_nat k + 1) with (Z.of_nat (S k)) by lia. rewrite Hout. reflexivity.
    + rewrite (drop_S _ _ _ He). constructor; [eauto | exact HF].
Qed.

(** X24: the command.  When [NewSFOParser] returns a model, [main] prints
    one line per entry, in table order, each with the entry's key and the
    value that [GetValue] finds for that key, and ends with status 0;
    neither error branch of its loop is taken.  When [NewSFOParser]
    returns an error, [main] prints it and ends with status 1. *)
Theorem main_prints_every_entry fs :
  (∀ parser, NewSFOParser fs "PARAM.sfo" = Ok parser →
     ∃ out, main fs = (out, Exit 0)
       ∧ Forall2 (λ e o, ∃ v, GetValue parser (Label e) = Ok v ∧ o = Printf_pair (Label e) v)
                 (Pairs parser) out)
  ∧ (∀ err, NewSFOParser fs "PARAM.sfo" = Err err → main fs = ([Println_Error err], Exit 1)).
Proof.
  split.
  - intros parser H. unfold main. rewrite H.
    apply NewSFOParser_Ok in H as (data & file' & _ & Hp).
    apply parse_Ok in Hp as ((Hn & Hlen & _) & _).
    unfold GetLength. rewrite Hn, <- Hlen, Nat2Z.id.
    apply (main_loop_prints parser (length (Pairs parser)) 0). reflexivity.
  - intros err H. unfold main. rewrite H. reflexivity.
Qed.

Lemma main_prints_every_entry_witness :
  main (on_disk sample_file) = ([Printf_pair (list_byte_of_string "A") (VInt32 1)], Exit 0)
  ∧ main ∅ = ([Println_Error ErrNotExist], Exit 1).
Proof.
  destruct (main_prints_every_entry (on_disk sample_file)) as [H1 _].
  destruct (main_prints_every_entry ∅) as [_ H2].
  split; [|apply H2; reflexivity].
  destruct (H1 sample_parser) as (out & -> & HF); [run|].
  apply Forall2_cons_inv_l in HF as (o & out' & (v & Hv & ->) & HF & ->).
  apply Forall2_nil_inv_l in HF as ->.
  assert (v = VInt32 1) as -> by (revert Hv; vm_compute; congruence).
  reflexivity.
Defined.
